(** * history: the navigation transition engine of packages/history/history.ts

    A shallow embedding of the path codec, the event registry, the location
    construction and the in-memory and URL-backed histories, followed by the
    properties of the specification that are settled against them.

    Conventions of the embedding.
    - A JavaScript [number] that holds a stack index or a delta is a [Z]
      (the code only adds, subtracts and compares such numbers); the index
      of a URL-backed history, which can be [undefined] or [NaN], has a type
      of its own.
    - A JavaScript string is a [string]; [indexOf] returns [-1] when the
      character is absent, as in the source.
    - An optional property ([pathname?: string]) is an [option]; [None] is an
      absent property, a location that is [undefined] is [None] as well.
    - The variables that the closures of one history share are a record, and
      an operation is a function on that record in a small monad that also
      logs the calls made to handlers and carries an exception.
    - Handlers are host functions.  They are compared by reference, so each
      carries the identity of its function object.  The code calls them and
      the model records each call in the log, in order; a handler may raise,
      which is a flag of the handler.  What the body of a handler does to the
      history is a call of the host like any other: the operations make their
      fan-out last, or commute with it, so such a call acts on the history
      that the operation leaves.
    - [Math.random] is the host's: an operation that draws a key takes the
      rendering of the random number as an argument.
    - The browser is an interface ([Platform]); what the code does to it is
      a change of the window that the history holds. *)

From Stdlib Require Import ZArith Ascii String List Bool Lia.
From stdpp Require Import base numbers list strings.

Local Open Scope Z_scope.

(* ===================================================================== *)
(** ** JavaScript string primitives used by the code *)
(* ===================================================================== *)

Module JS.

(** [if (s)] on a string: the empty string is falsy. *)
Definition truthy (s : string) : bool :=
  match s with
  | EmptyString => false
  | String _ _ => true
  end.

Fixpoint indexOf_from (c : ascii) (s : string) (i : Z) : Z :=
  match s with
  | EmptyString => -1
  | String a s' => if Ascii.eqb a c then i else indexOf_from c s' (i + 1)
  end.

(** [s.indexOf(c)] for a one-character needle. *)
Definition indexOf (c : ascii) (s : string) : Z := indexOf_from c s 0.

Fixpoint drop (n : nat) (s : string) : string :=
  match n, s with
  | O, _ => s
  | S n', EmptyString => EmptyString
  | S n', String _ s' => drop n' s'
  end.

Fixpoint take (n : nat) (s : string) : string :=
  match n, s with
  | O, _ => EmptyString
  | S n', EmptyString => EmptyString
  | S n', String a s' => String a (take n' s')
  end.

Definition size (s : string) : Z := Z.of_nat (String.length s).

(** [s.substr(start, len)]: a negative start counts from the end, both
    ends are clamped to the string. *)
Definition substr (s : string) (start len : Z) : string :=
  let intStart :=
    if start <? 0 then Z.max (size s + start) 0 else Z.min start (size s) in
  let intLength := Z.min (Z.max len 0) (size s) in
  let intEnd := Z.min (intStart + intLength) (size s) in
  take (Z.to_nat (intEnd - intStart)) (drop (Z.to_nat intStart) s).

(** [s.substr(start)]: the length defaults to the size of the string. *)
Definition substr_from (s : string) (start : Z) : string :=
  substr s start (size s).

(** [s.includes(c)], used to state where a piece ends. *)
Fixpoint includes (c : ascii) (s : string) : bool :=
  match s with
  | EmptyString => false
  | String a s' => Ascii.eqb a c || includes c s'
  end.

(** [s.charAt(0) === c]. *)
Definition starts_with (c : ascii) (s : string) : bool :=
  match s with
  | EmptyString => false
  | String a _ => Ascii.eqb a c
  end.

End JS.

(* ===================================================================== *)
(** ** Path codec *)
(* ===================================================================== *)

Definition Path := string.

Record PathPieces := mkPieces {
  pp_pathname : option string;
  pp_search : option string;
  pp_hash : option string
}.

Definition no_pieces : PathPieces := mkPieces None None None.

(** [pathname = '/', search = '', hash = ''] in the parameter pattern. *)
Definition createPath (p : PathPieces) : Path :=
  (default "/" (pp_pathname p) +:+ default "" (pp_search p)
     +:+ default "" (pp_hash p))%string.

Definition parsePath (path : Path) : PathPieces :=
  if JS.truthy path then
    let hashIndex := JS.indexOf "#" path in
    let '(hash, path) :=
      if 0 <=? hashIndex
      then (Some (JS.substr_from path hashIndex), JS.substr path 0 hashIndex)
      else (None, path) in
    let searchIndex := JS.indexOf "?" path in
    let '(search, path) :=
      if 0 <=? searchIndex
      then (Some (JS.substr_from path searchIndex), JS.substr path 0 searchIndex)
      else (None, path) in
    mkPieces (if JS.truthy path then Some path else None) search hash
  else no_pieces.

(** A path string is valid when it carries a pathname: it is not empty and
    does not begin with the search or the hash delimiter.  Every absolute
    path (one that begins with a slash) is valid. *)
Definition valid_path (p : Path) : bool :=
  match p with
  | EmptyString => false
  | String a _ => negb (Ascii.eqb a "#") && negb (Ascii.eqb a "?")
  end.

(* ===================================================================== *)
(** ** Data model *)
(* ===================================================================== *)

Inductive Action := Pop | Push | Replace.

(** [State = object], optional: a state is [undefined], [null] or a
    reference to a host object. *)
Inductive StateVal := Undefined | Null | Obj (ref : nat).

Record Location := mkLocation {
  pathname : string;
  search : string;
  hash : string;
  state : StateVal;
  key : string
}.

(** [To = Path | PathPieces]; an initial entry has the same type. *)
Inductive To := ToPath (p : Path) | ToPieces (pieces : PathPieces).

Definition pieces_of (to : To) : PathPieces :=
  match to with
  | ToPath p => parsePath p        (* typeof to === 'string' *)
  | ToPieces pieces => pieces
  end.

Definition path_of (l : Location) : PathPieces :=
  mkPieces (Some (pathname l)) (Some (search l)) (Some (hash l)).

(** [createKey]: [rnd] is the rendering [Math.random().toString(36)] that
    the host produces for this call, of which the code keeps eight
    characters after the leading [0.]. *)
Definition createKey (rnd : string) : string := JS.substr rnd 2 8.

(** [Object.assign({}, location, pieces, { state, key: createKey() })]. *)
Definition getNextLocation (location : Location) (to : To) (st : StateVal)
    (rnd : string) : Location :=
  let pieces := pieces_of to in
  {| pathname := default (pathname location) (pp_pathname pieces);
     search := default (search location) (pp_search pieces);
     hash := default (hash location) (pp_hash pieces);
     state := st;
     key := createKey rnd |}.

(** The closure a transition carries.  It captures the arguments of the
    call that was vetoed and runs against the history as it is when the
    closure is invoked. *)
Inductive Retry :=
| RetryPush (to : To) (st : StateVal)
| RetryReplace (to : To) (st : StateVal)
| RetryGo (n : Z).

Record Update := mkUpdate {
  u_action : Action;
  u_location : option Location
}.

Record Transition := mkTransition {
  tx_action : Action;
  tx_location : option Location;
  tx_retry : Retry
}.

(* ===================================================================== *)
(** ** Event registry *)
(* ===================================================================== *)

(** A handler is a host function: [href] is the identity of the function
    object, [raises] tells whether an invocation of it throws. *)
Record Handler := mkHandler { href : nat; raises : bool }.

Global Instance Handler_eq_dec : EqDecision Handler.
Proof. solve_decision. Defined.

Module Events.

(** The [handlers] array of one registry. *)
Abbreviation t := (list Handler).

(** [let handlers = []] *)
Definition create : t := [].

Definition length (handlers : t) : Z := Z.of_nat (List.length handlers).

(** [handlers.push(fn)] *)
Definition push (fn : Handler) (handlers : t) : t := handlers ++ [fn].

(** The function that [push] returns:
    [handlers = handlers.filter(handler => handler !== fn)]. *)
Definition remove (fn : Handler) (handlers : t) : t :=
  filter (fun handler => handler <> fn) handlers.

(** [handlers.forEach(fn => fn && fn(arg))]: the handlers that get
    invoked, in order, and the handler whose exception ended the loop, if
    any.  A function value is truthy, so the guard [fn &&] always passes.
    [forEach] has no handler for exceptions: the first one raised leaves
    the loop and [call]. *)
Fixpoint call (handlers : t) : list Handler * option Handler :=
  match handlers with
  | [] => ([], None)
  | fn :: rest =>
      if raises fn then ([fn], Some fn)
      else let '(invoked, r) := call rest in (fn :: invoked, r)
  end.

End Events.

Definition createEvents : Events.t := Events.create.

(* ===================================================================== *)
(** ** Effects of an operation *)
(* ===================================================================== *)

Inductive Notice :=
| RelativePathname (api : string) (to : To)
| UnblockablePop.

Inductive Effect :=
| CallListener (fn : Handler) (u : Update)
| CallBlocker (fn : Handler) (tx : Transition)
| Warn (w : Notice).

Inductive Exn :=
| TypeError                (* a property read on [undefined] *)
| Raised (fn : Handler)    (* the exception of a handler *)
| Unmodelled.              (* an array write that leaves the list model *)

Inductive Outcome (A : Type) :=
| Returned (a : A)
| Threw (e : Exn).
Arguments Returned {A} a.
Arguments Threw {A} e.

(** Operations run in a state monad that logs the calls to handlers and
    can throw; the state at the throw is kept, as an exception leaves the
    variables of the closure as they are. *)
Definition M (S A : Type) : Type := S -> S * list Effect * Outcome A.

Definition ret {S A} (a : A) : M S A := fun s => (s, [], Returned a).

Definition bind {S A B} (m : M S A) (k : A -> M S B) : M S B :=
  fun s =>
    match m s with
    | (s1, l1, Returned a) =>
        match k a s1 with
        | (s2, l2, r) => (s2, l1 ++ l2, r)
        end
    | (s1, l1, Threw e) => (s1, l1, Threw e)
    end.

Definition get {S} : M S S := fun s => (s, [], Returned s).
Definition modify {S} (f : S -> S) : M S unit := fun s => (f s, [], Returned tt).
Definition emit {S} (l : list Effect) : M S unit := fun s => (s, l, Returned tt).
Definition throw {S A} (e : Exn) : M S A := fun s => (s, [], Threw e).

Notation "'let*' x ':=' c 'in' k" := (bind c (fun x => k))
  (at level 10, x name, c at level 100, k at level 200).
Notation "c1 ';;;' c2" := (bind c1 (fun _ => c2))
  (at level 100, c2 at level 200, right associativity).

(** [warning(cond, message)]: the message goes to the console, the error
    thrown inside is caught on the spot. *)
Definition warning {S} (cond : bool) (w : Notice) : M S unit :=
  if cond then ret tt else emit [Warn w].

(** [registry.call(arg)] from inside an operation. *)
Definition fanout {S A} (mk : Handler -> A -> Effect) (handlers : Events.t)
    (arg : A) : M S unit :=
  let '(invoked, r) := Events.call handlers in
  emit (map (fun fn => mk fn arg) invoked) ;;;
  match r with
  | Some fn => throw (Raised fn)
  | None => ret tt
  end.

(** The calls to listeners and to blockers that a log holds, and what one
    fan-out leaves in the log and returns. *)
Definition listener_calls (log : list Effect) : list (Handler * Update) :=
  omap (fun e => match e with CallListener fn u => Some (fn, u) | _ => None end) log.

Definition blocker_calls (log : list Effect) : list (Handler * Transition) :=
  omap (fun e => match e with CallBlocker fn tx => Some (fn, tx) | _ => None end) log.

Definition fan_log {A} (mk : Handler -> A -> Effect) (handlers : Events.t)
    (arg : A) : list Effect :=
  map (fun fn => mk fn arg) (Events.call handlers).1.

Definition fan_outcome (handlers : Events.t) : Outcome unit :=
  match (Events.call handlers).2 with
  | Some fn => Threw (Raised fn)
  | None => Returned tt
  end.

Definition warn_log (cond : bool) (w : Notice) : list Effect :=
  if cond then [] else [Warn w].

(** A log that holds one fan-out of the update [u] to the listeners and no
    call to a blocker; a log that holds one fan-out of the transition [tx]
    to the blockers and no call to a listener.  A fan-out reaches the
    handlers in order, up to the first that raises. *)
Definition fans_update (log : list Effect) (listeners : Events.t) (u : Update) : Prop :=
  listener_calls log = map (fun fn => (fn, u)) (Events.call listeners).1 /\
  blocker_calls log = [].

Definition fans_transition (log : list Effect) (blockers : Events.t)
    (tx : Transition) : Prop :=
  blocker_calls log = map (fun fn => (fn, tx)) (Events.call blockers).1 /\
  listener_calls log = [].

Definition clamp (n lowerBound upperBound : Z) : Z :=
  Z.min (Z.max n lowerBound) upperBound.

(** [array[i]]: [undefined] outside the array. *)
Definition array_get {A} (l : list A) (i : Z) : option A :=
  if i <? 0 then None else l !! Z.to_nat i.

(** [array.splice(start, deleteCount, item)], the array after the call. *)
Definition splice {A} (l : list A) (start deleteCount : Z) (item : A) : list A :=
  let len := Z.of_nat (length l) in
  let actualStart :=
    if start <? 0 then Z.max (len + start) 0 else Z.min start len in
  let actualDeleteCount := Z.min (Z.max deleteCount 0) (len - actualStart) in
  take (Z.to_nat actualStart) l ++ item
    :: drop (Z.to_nat (actualStart + actualDeleteCount)) l.

(** [array[i] = v]: an overwrite inside the array, an append at its end.
    Elsewhere JavaScript leaves a hole or sets a property that is not an
    element; a list holds neither, and the write is [None] there. *)
Definition array_set {A} (l : list A) (i : Z) (v : A) : option (list A) :=
  if (0 <=? i) && (i <? Z.of_nat (length l)) then Some (<[Z.to_nat i := v]> l)
  else if i =? Z.of_nat (length l) then Some (l ++ [v])
  else None.

(* ===================================================================== *)
(** ** The in-memory history *)
(* ===================================================================== *)

Module Memory.

(** The variables that the closures of [createMemoryHistory] share. *)
Record MemoryHistory := mkMemoryHistory {
  entries : list Location;
  index : Z;
  action : Action;
  location : option Location;
  blockers : Events.t;
  listeners : Events.t
}.

Definition set_cursor (a : Action) (l : option Location) (h : MemoryHistory) :=
  mkMemoryHistory (entries h) (index h) a l (blockers h) (listeners h).
Definition set_index (i : Z) (h : MemoryHistory) :=
  mkMemoryHistory (entries h) i (action h) (location h) (blockers h) (listeners h).
Definition set_entries (es : list Location) (h : MemoryHistory) :=
  mkMemoryHistory es (index h) (action h) (location h) (blockers h) (listeners h).
Definition set_blockers (b : Events.t) (h : MemoryHistory) :=
  mkMemoryHistory (entries h) (index h) (action h) (location h) b (listeners h).
Definition set_listeners (l : Events.t) (h : MemoryHistory) :=
  mkMemoryHistory (entries h) (index h) (action h) (location h) (blockers h) l.

(** One initial entry: the defaults, overridden by the pieces given. *)
Definition initial_location (entry : To) (rnd : string) : Location :=
  let pieces := pieces_of entry in
  {| pathname := default "/" (pp_pathname pieces);
     search := default "" (pp_search pieces);
     hash := default "" (pp_hash pieces);
     state := Undefined;
     key := createKey rnd |}.

(** [createMemoryHistory({ initialEntries = ['/'], initialIndex = 0 })];
    [rnd i] is the random rendering drawn for entry [i].  The notices about
    relative pathnames are the only effect of the construction. *)
Definition createMemoryHistory (initialEntries : option (list To))
    (initialIndex : option Z) (rnd : nat -> string)
    : MemoryHistory * list Effect :=
  let initialEntries := default [ToPath "/"] initialEntries in
  let initialIndex := default 0 initialIndex in
  let entries := imap (fun i entry => initial_location entry (rnd i)) initialEntries in
  let notices :=
    omap (fun '(entry, l) =>
            if JS.starts_with "/" (pathname l) then None
            else Some (Warn (RelativePathname "createMemoryHistory" entry)))
         (zip initialEntries entries) in
  let index := clamp initialIndex 0 (Z.of_nat (length entries) - 1) in
  ({| entries := entries;
      index := index;
      action := Pop;
      location := array_get entries index;
      blockers := createEvents;
      listeners := createEvents |}, notices).

Definition allowTx (action : Action) (location : option Location)
    (retry : Retry) : M MemoryHistory bool :=
  let* h := get in
  if Events.length (blockers h) =? 0 then ret true
  else fanout CallBlocker (blockers h) (mkTransition action location retry) ;;;
       ret false.

Definition applyTx (nextAction : Action) (nextLocation : option Location)
    : M MemoryHistory unit :=
  modify (set_cursor nextAction nextLocation) ;;;
  let* h := get in
  fanout CallListener (listeners h) (mkUpdate (action h) (location h)).

(** [location.pathname] on the current location, which is [undefined] in
    a history created without entries: the read throws. *)
Definition current_location : M MemoryHistory Location :=
  let* h := get in
  match location h with
  | Some l => ret l
  | None => throw TypeError
  end.

Definition push (to : To) (st : StateVal) (rnd : string) : M MemoryHistory unit :=
  let nextAction := Push in
  let* location := current_location in
  let nextLocation := getNextLocation location to st rnd in
  warning (JS.starts_with "/" (pathname location))
          (RelativePathname "push" to) ;;;
  let* ok := allowTx nextAction (Some nextLocation) (RetryPush to st) in
  if ok : bool then
    modify (fun h => set_index (index h + 1) h) ;;;
    modify (fun h =>
              set_entries (splice (entries h) (index h)
                             (Z.of_nat (length (entries h))) nextLocation) h) ;;;
    applyTx nextAction (Some nextLocation)
  else ret tt.

Definition replace (to : To) (st : StateVal) (rnd : string) : M MemoryHistory unit :=
  let nextAction := Replace in
  let* location := current_location in
  let nextLocation := getNextLocation location to st rnd in
  warning (JS.starts_with "/" (pathname location))
          (RelativePathname "replace" to) ;;;
  let* ok := allowTx nextAction (Some nextLocation) (RetryReplace to st) in
  if ok : bool then
    (let* h := get in
     match array_set (entries h) (index h) nextLocation with
     | Some es => modify (set_entries es)
     | None => throw Unmodelled
     end) ;;;
    applyTx nextAction (Some nextLocation)
  else ret tt.

Definition go (n : Z) : M MemoryHistory unit :=
  let* h := get in
  let nextIndex := clamp (index h + n) 0 (Z.of_nat (length (entries h)) - 1) in
  let nextAction := Pop in
  let nextLocation := array_get (entries h) nextIndex in
  let* ok := allowTx nextAction nextLocation (RetryGo n) in
  if ok : bool then
    modify (set_index nextIndex) ;;;
    applyTx nextAction nextLocation
  else ret tt.

Definition back : M MemoryHistory unit := go (-1).
Definition forward : M MemoryHistory unit := go 1.

(** [listen] and [block] register a handler and return the function that
    removes it, which is [unlisten] and [unblock] here. *)
Definition listen (listener : Handler) : M MemoryHistory unit :=
  modify (fun h => set_listeners (Events.push listener (listeners h)) h).
Definition unlisten (listener : Handler) : M MemoryHistory unit :=
  modify (fun h => set_listeners (Events.remove listener (listeners h)) h).
Definition block (blocker : Handler) : M MemoryHistory unit :=
  modify (fun h => set_blockers (Events.push blocker (blockers h)) h).
Definition unblock (blocker : Handler) : M MemoryHistory unit :=
  modify (fun h => set_blockers (Events.remove blocker (blockers h)) h).

(** [tx.retry()]: the call that was vetoed, made again; a push or a
    replace draws a new key. *)
Definition retry (r : Retry) (rnd : string) : M MemoryHistory unit :=
  match r with
  | RetryPush to st => push to st rnd
  | RetryReplace to st => replace to st rnd
  | RetryGo n => go n
  end.

(** The calls a host can make on a memory history. *)
Inductive Call :=
| CPush (to : To) (st : StateVal) (rnd : string)
| CReplace (to : To) (st : StateVal) (rnd : string)
| CGo (n : Z)
| CBack
| CForward
| CListen (fn : Handler)
| CUnlisten (fn : Handler)
| CBlock (fn : Handler)
| CUnblock (fn : Handler)
| CRetry (r : Retry) (rnd : string).

Definition run (c : Call) : M MemoryHistory unit :=
  match c with
  | CPush to st rnd => push to st rnd
  | CReplace to st rnd => replace to st rnd
  | CGo n => go n
  | CBack => back
  | CForward => forward
  | CListen fn => listen fn
  | CUnlisten fn => unlisten fn
  | CBlock fn => block fn
  | CUnblock fn => unblock fn
  | CRetry r rnd => retry r rnd
  end.

(** The history after a call, whether the call returned or threw. *)
Definition after (c : Call) (h : MemoryHistory) : MemoryHistory := (run c h).1.1.

Definition run_all (cs : list Call) (h : MemoryHistory) : MemoryHistory :=
  foldl (fun h c => after c h) h cs.

(** The notices that a push or a replace logs: one when the pathname of
    the current location is relative. *)
Definition notices (api : string) (to : To) (cur : Location) : list Effect :=
  warn_log (JS.starts_with "/" (pathname cur)) (RelativePathname api to).

(** The result of a call that commits the update [u] from the history
    [h]: the cursor holds [u] and the listeners of [h] get one fan-out of
    it.  The result of a call that is vetoed with the transition [tx]:
    the history is as it was and the blockers get one fan-out of [tx]. *)
Definition commits (res : MemoryHistory * list Effect * Outcome unit)
    (h : MemoryHistory) (u : Update) : Prop :=
  action res.1.1 = u_action u /\ location res.1.1 = u_location u /\
  fans_update res.1.2 (listeners h) u.

Definition vetoes (res : MemoryHistory * list Effect * Outcome unit)
    (h : MemoryHistory) (tx : Transition) : Prop :=
  res.1.1 = h /\ fans_transition res.1.2 (blockers h) tx.

(** The invariant of the cursor. *)
Definition cursor_ok (h : MemoryHistory) : Prop :=
  0 <= index h <= Z.of_nat (length (entries h)) - 1 /\
  location h = array_get (entries h) (index h).

(** A memory history at [/a] with one listener and one blocker. *)
Definition listener1 : Handler := mkHandler 1 false.
Definition blocker1 : Handler := mkHandler 2 false.

Definition guarded : MemoryHistory :=
  run_all [CListen listener1; CBlock blocker1]
          (createMemoryHistory (Some [ToPath "/a"]) None (fun _ => "0.4fzzzxjylrx")).1.

End Memory.

(* ===================================================================== *)
(** ** The URL-backed histories (browser and hash) *)
(* ===================================================================== *)

(** A number read from or written to [history.state.idx]: the code does
    arithmetic on an index that may be [undefined], which yields [NaN]. *)
Inductive Num := NaN | Int (z : Z).

(** [HistoryState], as found in [window.history.state]. *)
Record HistoryState := mkHistoryState {
  usr : StateVal;
  hkey : option string;
  idx : option Num          (* [None]: no [idx], read as [undefined] *)
}.

(** What the code asks of the platform.  The platform is not part of the
    repository: it is an interface here, and every result holds for each
    implementation of it. *)
Class Platform (W : Type) := {
  (** [window.location.{pathname, search, hash}] *)
  win_pathname : W -> string;
  win_search : W -> string;
  win_hash : W -> string;
  (** [window.location.href] *)
  win_href : W -> string;
  (** [document.querySelector('base')] exists and has an [href] *)
  doc_has_base_href : W -> bool;
  (** [window.history.state]; [None] is [null] *)
  history_state : W -> option HistoryState;
  (** [history.pushState(state, '', url)]; [None] when the call throws *)
  pushState : HistoryState -> string -> W -> option W;
  (** [history.replaceState(state, '', url)], the URL being optional *)
  replaceState : HistoryState -> option string -> W -> W;
  (** [history.go(n)]: asks for a traversal, which the platform performs
      later and reports with a [popstate] event *)
  history_go : Z -> W -> W;
  (** [window.location.assign(url)] *)
  location_assign : string -> W -> W;
  (** adding and removing the [beforeunload] listener *)
  set_beforeunload : bool -> W -> W
}.

Inductive Backend := Browser | Hash.

Module Url.
Section WithPlatform.

Context {W : Type} `{Platform W}.

Record UrlHistory := mkUrlHistory {
  window : W;
  index : option Num;
  action : Action;
  location : Location;
  blockers : Events.t;
  listeners : Events.t;
  blockedPopTx : option Transition
}.

Definition set_window (w : W) (h : UrlHistory) :=
  mkUrlHistory w (index h) (action h) (location h) (blockers h) (listeners h)
               (blockedPopTx h).
Definition set_cursor (a : Action) (i : option Num) (l : Location)
    (h : UrlHistory) :=
  mkUrlHistory (window h) i a l (blockers h) (listeners h) (blockedPopTx h).
Definition set_blockers (b : Events.t) (h : UrlHistory) :=
  mkUrlHistory (window h) (index h) (action h) (location h) b (listeners h)
               (blockedPopTx h).
Definition set_listeners (l : Events.t) (h : UrlHistory) :=
  mkUrlHistory (window h) (index h) (action h) (location h) (blockers h) l
               (blockedPopTx h).
Definition set_blockedPopTx (tx : option Transition) (h : UrlHistory) :=
  mkUrlHistory (window h) (index h) (action h) (location h) (blockers h)
               (listeners h) tx.

(** [state.usr || null] *)
Definition usr_or_null (s : StateVal) : StateVal :=
  match s with
  | Obj r => Obj r
  | Undefined | Null => Null
  end.

(** [state.key || 'default'] *)
Definition key_or_default (k : option string) : string :=
  match k with
  | Some k => if JS.truthy k then k else "default"
  | None => "default"
  end.

Definition getIndexAndLocation (b : Backend) (w : W) : option Num * Location :=
  let pieces :=
    match b with
    | Browser => mkPieces (Some (win_pathname w)) (Some (win_search w))
                          (Some (win_hash w))
    | Hash => parsePath (JS.substr_from (win_hash w) 1)
    end in
  let state := default (mkHistoryState Undefined None None) (history_state w) in
  (idx state,
   {| pathname := default "/" (pp_pathname pieces);
      search := default "" (pp_search pieces);
      hash := default "" (pp_hash pieces);
      state := usr_or_null (usr state);
      key := key_or_default (hkey state) |}).

(** [url.slice(0, hashIndex)] up to the first hash, or the whole URL. *)
Definition getBaseHref (w : W) : string :=
  if doc_has_base_href w then
    let url := win_href w in
    let hashIndex := JS.indexOf "#" url in
    if hashIndex =? -1 then url else JS.take (Z.to_nat hashIndex) url
  else "".

Definition createHref (b : Backend) (w : W) (to : To) : string :=
  let path := match to with
              | ToPath p => p
              | ToPieces pieces => createPath pieces
              end in
  match b with
  | Browser => path
  | Hash => (getBaseHref w +:+ "#" +:+ path)%string
  end.

(** [index + k] and [index - nextIndex] on numbers that may be
    [undefined] or [NaN]. *)
Definition num_add (i : option Num) (k : Z) : Num :=
  match i with
  | Some (Int z) => Int (z + k)
  | _ => NaN
  end.

Definition num_sub (i j : option Num) : Num :=
  match i, j with
  | Some (Int a), Some (Int b) => Int (a - b)
  | _, _ => NaN
  end.

(** The index given may be [undefined], as the engine's own index is
    after a pop to an entry that has none. *)
Definition getHistoryStateAndUrl (b : Backend) (w : W)
    (nextLocation : Location) (index : option Num) : HistoryState * string :=
  (mkHistoryState (state nextLocation) (Some (key nextLocation)) index,
   createHref b w (ToPieces (path_of nextLocation))).

(** The construction: read the cursor from the platform and, when the
    entry has no index, give it index 0. *)
Definition createHistory (b : Backend) (w : W) : UrlHistory :=
  let '(index, location) := getIndexAndLocation b w in
  match index with
  | None =>
      let st := default (mkHistoryState Undefined None None) (history_state w) in
      mkUrlHistory
        (replaceState (mkHistoryState (usr st) (hkey st) (Some (Int 0))) None w)
        (Some (Int 0)) Pop location createEvents createEvents None
  | Some _ =>
      mkUrlHistory w index Pop location createEvents createEvents None
  end.

Definition createBrowserHistory (w : W) : UrlHistory := createHistory Browser w.
Definition createHashHistory (w : W) : UrlHistory := createHistory Hash w.

Definition go (n : Z) : M UrlHistory unit :=
  modify (fun h => set_window (history_go n (window h)) h).

Definition allowTx (action : Action) (location : Location) (retry : Retry)
    : M UrlHistory bool :=
  let* h := get in
  if Events.length (blockers h) =? 0 then ret true
  else fanout CallBlocker (blockers h)
              (mkTransition action (Some location) retry) ;;;
       ret false.

Definition applyTx (b : Backend) (nextAction : Action) : M UrlHistory unit :=
  modify (fun h =>
            let '(index, location) := getIndexAndLocation b (window h) in
            set_cursor nextAction index location h) ;;;
  let* h := get in
  fanout CallListener (listeners h) (mkUpdate (action h) (Some (location h))).

Definition handlePop (b : Backend) : M UrlHistory unit :=
  let* h := get in
  match blockedPopTx h with
  | Some tx =>
      fanout CallBlocker (blockers h) tx ;;;
      modify (set_blockedPopTx None)
  | None =>
      let nextAction := Pop in
      let '(nextIndex, nextLocation) := getIndexAndLocation b (window h) in
      if negb (Events.length (blockers h) =? 0) then
        match nextIndex with
        | Some _ =>
            match num_sub (index h) nextIndex with
            | Int n =>
                if negb (n =? 0) then
                  (* Revert the POP *)
                  modify (set_blockedPopTx
                            (Some (mkTransition nextAction (Some nextLocation)
                                                (RetryGo (n * -1))))) ;;;
                  go n
                else ret tt
            | NaN => ret tt
            end
        | None => warning false UnblockablePop
        end
      else applyTx b nextAction
  end.

(** The [hashchange] listener of the hash history. *)
Definition handleHashChange : M UrlHistory unit :=
  let* h := get in
  let '(_, nextLocation) := getIndexAndLocation Hash (window h) in
  if negb (String.eqb (createPath (path_of nextLocation))
                      (createPath (path_of (location h))))
  then handlePop Hash
  else ret tt.

(** The notice of the hash history about a relative pathname. *)
Definition warn_relative (b : Backend) (api : string) (to : To)
    (nextLocation : Location) : M UrlHistory unit :=
  match b with
  | Browser => ret tt
  | Hash => warning (JS.starts_with "/" (pathname nextLocation))
                    (RelativePathname api to)
  end.

Definition notices (b : Backend) (api : string) (to : To)
    (nextLocation : Location) : list Effect :=
  match b with
  | Browser => []
  | Hash => warn_log (JS.starts_with "/" (pathname nextLocation))
                     (RelativePathname api to)
  end.

(** The window after [pushState], or after [location.assign] when
    [pushState] throws. *)
Definition pushed (b : Backend) (nextLocation : Location) (h : UrlHistory) : W :=
  let '(historyState, url) :=
    getHistoryStateAndUrl b (window h) nextLocation (Some (num_add (index h) 1)) in
  match pushState historyState url (window h) with
  | Some w => w
  | None => location_assign url (window h)
  end.

Definition replaced (b : Backend) (nextLocation : Location) (h : UrlHistory) : W :=
  let '(historyState, url) :=
    getHistoryStateAndUrl b (window h) nextLocation (index h) in
  replaceState historyState (Some url) (window h).

(** The history once [applyTx] has read the cursor from the window [w]. *)
Definition applied (b : Backend) (a : Action) (w : W) (h : UrlHistory) : UrlHistory :=
  mkUrlHistory w (getIndexAndLocation b w).1 a (getIndexAndLocation b w).2
               (blockers h) (listeners h) (blockedPopTx h).

(** The result of a call that commits from [h] with the action [a] and
    the window [w]: the history is [h] with the cursor read from [w], and
    the listeners get one fan-out of that update.  The result of a call
    that is vetoed with [tx]: the history is as it was and the blockers
    get one fan-out of [tx]. *)
Definition commits (b : Backend) (res : UrlHistory * list Effect * Outcome unit)
    (h : UrlHistory) (a : Action) (w : W) : Prop :=
  res.1.1 = applied b a w h /\
  fans_update res.1.2 (listeners h)
              (mkUpdate a (Some (getIndexAndLocation b w).2)).

Definition vetoes (res : UrlHistory * list Effect * Outcome unit)
    (h : UrlHistory) (tx : Transition) : Prop :=
  res.1.1 = h /\ fans_transition res.1.2 (blockers h) tx.

Definition push (b : Backend) (to : To) (st : StateVal) (rnd : string)
    : M UrlHistory unit :=
  let nextAction := Push in
  let* h := get in
  let nextLocation := getNextLocation (location h) to st rnd in
  warn_relative b "push" to nextLocation ;;;
  let* ok := allowTx nextAction nextLocation (RetryPush to st) in
  if ok : bool then
    modify (fun h =>
              let '(historyState, url) :=
                getHistoryStateAndUrl b (window h) nextLocation
                                      (Some (num_add (index h) 1)) in
              match pushState historyState url (window h) with
              | Some w => set_window w h
              | None => set_window (location_assign url (window h)) h
              end) ;;;
    applyTx b nextAction
  else ret tt.

Definition replace (b : Backend) (to : To) (st : StateVal) (rnd : string)
    : M UrlHistory unit :=
  let nextAction := Replace in
  let* h := get in
  let nextLocation := getNextLocation (location h) to st rnd in
  warn_relative b "replace" to nextLocation ;;;
  let* ok := allowTx nextAction nextLocation (RetryReplace to st) in
  if ok : bool then
    modify (fun h =>
              let '(historyState, url) :=
                getHistoryStateAndUrl b (window h) nextLocation (index h) in
              set_window (replaceState historyState (Some url) (window h)) h) ;;;
    applyTx b nextAction
  else ret tt.

Definition back : M UrlHistory unit := go (-1).
Definition forward : M UrlHistory unit := go 1.

Definition listen (listener : Handler) : M UrlHistory unit :=
  modify (fun h => set_listeners (Events.push listener (listeners h)) h).
Definition unlisten (listener : Handler) : M UrlHistory unit :=
  modify (fun h => set_listeners (Events.remove listener (listeners h)) h).

Definition block (blocker : Handler) : M UrlHistory unit :=
  modify (fun h => set_blockers (Events.push blocker (blockers h)) h) ;;;
  let* h := get in
  if Events.length (blockers h) =? 1
  then modify (fun h => set_window (set_beforeunload true (window h)) h)
  else ret tt.

Definition unblock (blocker : Handler) : M UrlHistory unit :=
  modify (fun h => set_blockers (Events.remove blocker (blockers h)) h) ;;;
  let* h := get in
  if Events.length (blockers h) =? 0
  then modify (fun h => set_window (set_beforeunload false (window h)) h)
  else ret tt.

Definition retry (b : Backend) (r : Retry) (rnd : string) : M UrlHistory unit :=
  match r with
  | RetryPush to st => push b to st rnd
  | RetryReplace to st => replace b to st rnd
  | RetryGo n => go n
  end.

End WithPlatform.
End Url.

(* ===================================================================== *)
(** ** A small window, to run the URL-backed histories on concrete inputs *)
(* ===================================================================== *)

Module Sim.

Record Entry := mkEntry {
  e_state : option HistoryState;
  e_pathname : string;
  e_search : string;
  e_hash : string
}.

(** A session history with its cursor, the traversals asked for and not
    yet performed, and whether the [beforeunload] listener is set. *)
Record Window := mkWindow {
  stack : list Entry;
  cursor : nat;
  pending : list Z;
  unload_armed : bool
}.

Definition blank : Entry := mkEntry None "/" "" "".

Definition current (w : Window) : Entry := default blank (stack w !! cursor w).

(** The entry a URL denotes, relative to the current one. *)
Definition resolve (st : option HistoryState) (url : string) (w : Window) : Entry :=
  let pieces := parsePath url in
  mkEntry st (default (e_pathname (current w)) (pp_pathname pieces))
          (default "" (pp_search pieces)) (default "" (pp_hash pieces)).

Definition sim_pushState (hs : HistoryState) (url : string) (w : Window)
    : option Window :=
  Some (mkWindow (take (S (cursor w)) (stack w) ++ [resolve (Some hs) url w])
                 (S (cursor w)) (pending w) (unload_armed w)).

Definition sim_replaceState (hs : HistoryState) (url : option string)
    (w : Window) : Window :=
  let e := match url with
           | Some u => resolve (Some hs) u w
           | None => mkEntry (Some hs) (e_pathname (current w))
                             (e_search (current w)) (e_hash (current w))
           end in
  mkWindow (<[cursor w := e]> (stack w)) (cursor w) (pending w) (unload_armed w).

Definition sim_go (n : Z) (w : Window) : Window :=
  mkWindow (stack w) (cursor w) (pending w ++ [n]) (unload_armed w).

Definition sim_assign (url : string) (w : Window) : Window :=
  mkWindow (take (S (cursor w)) (stack w) ++ [resolve None url w])
           (S (cursor w)) (pending w) (unload_armed w).

Definition sim_set_beforeunload (b : bool) (w : Window) : Window :=
  mkWindow (stack w) (cursor w) (pending w) b.

Global Instance platform : Platform Window := {|
  win_pathname w := e_pathname (current w);
  win_search w := e_search (current w);
  win_hash w := e_hash (current w);
  win_href w := ("http://localhost" +:+ e_pathname (current w)
                   +:+ e_search (current w) +:+ e_hash (current w))%string;
  doc_has_base_href _ := false;
  history_state w := e_state (current w);
  pushState := sim_pushState;
  replaceState := sim_replaceState;
  history_go := sim_go;
  location_assign := sim_assign;
  set_beforeunload := sim_set_beforeunload
|}.

(** The platform performs the oldest traversal asked for: the cursor
    moves when the target exists, and the move fires [popstate].  [None]
    when nothing is pending. *)
Definition traverse (w : Window) : option (Window * bool) :=
  match pending w with
  | [] => None
  | n :: rest =>
      let target := Z.of_nat (cursor w) + n in
      if (0 <=? target) && (target <? Z.of_nat (length (stack w)))
      then Some (mkWindow (stack w) (Z.to_nat target) rest (unload_armed w), true)
      else Some (mkWindow (stack w) (cursor w) rest (unload_armed w), false)
  end.

(** A traversal performed, then the [popstate] event it fires. *)
Definition deliver (b : Backend) : M (Url.UrlHistory (W := Window)) unit :=
  let* h := get in
  match traverse (Url.window h) with
  | Some (w, fired) =>
      modify (Url.set_window w) ;;;
      if fired : bool then Url.handlePop b else ret tt
  | None => ret tt
  end.

(** The user presses back or forward: a traversal the engine did not
    ask for. *)
Definition user_go (n : Z) : M (Url.UrlHistory (W := Window)) unit := Url.go n.

(** A browser history on the small window: a listener registered, one
    entry pushed from [/], then a blocker registered. *)
Definition blk : Handler := mkHandler 7 false.
Definition lst : Handler := mkHandler 8 false.

Definition at_b : Url.UrlHistory (W := Window) :=
  let h0 := Url.createBrowserHistory (mkWindow [blank] 0 [] false) in
  let h1 := (Url.listen lst h0).1.1 in
  let h2 := (Url.push Browser (ToPath "/b") Null "0.9x8y7z6w5v" h1).1.1 in
  (Url.block blk h2).1.1.

(** The transition held once the user has gone back from [/b] to [/]. *)
Definition held : Transition :=
  mkTransition Pop (Some (mkLocation "/" "" "" Null "default")) (RetryGo (-1)).

End Sim.

(* ===================================================================== *)
(** ** Well-formed pieces *)
(* ===================================================================== *)

(** The shape of the pieces of a URL path, as the comments of [PathPieces]
    give it: a pathname that is not empty and holds no delimiter, a search
    that begins with [?] and holds no [#], a hash that begins with [#]. *)
Definition wf_pathname (x : string) : bool :=
  JS.truthy x && negb (JS.includes "#" x) && negb (JS.includes "?" x).

Definition wf_search (q : string) : bool :=
  JS.starts_with "?" q && negb (JS.includes "#" q).

Definition wf_hash (h : string) : bool := JS.starts_with "#" h.

(** Pieces with a pathname, each piece present being well formed. *)
Definition wf_pieces (p : PathPieces) : bool :=
  match pp_pathname p with Some x => wf_pathname x | None => false end
  && match pp_search p with Some q => wf_search q | None => true end
  && match pp_hash p with Some h => wf_hash h | None => true end.

(** A location, whose search and hash may be empty. *)
Definition wf_location (l : Location) : bool :=
  wf_pathname (pathname l)
  && (negb (JS.truthy (search l)) || wf_search (search l))
  && (negb (JS.truthy (hash l)) || wf_hash (hash l)).

(* ===================================================================== *)
(** ** The action and the arguments of a call on a memory history *)
(* ===================================================================== *)

Definition retry_action (r : Retry) : Action :=
  match r with
  | RetryPush _ _ => Push
  | RetryReplace _ _ => Replace
  | RetryGo _ => Pop
  end.

(** The action that a call attempts; a registration attempts none. *)
Definition call_action (c : Memory.Call) : option Action :=
  match c with
  | Memory.CPush _ _ _ => Some Push
  | Memory.CReplace _ _ _ => Some Replace
  | Memory.CGo _ | Memory.CBack | Memory.CForward => Some Pop
  | Memory.CRetry r _ => Some (retry_action r)
  | _ => None
  end.

(** The closure that a call hands to the blockers when it is vetoed. *)
Definition call_retry (c : Memory.Call) : option Retry :=
  match c with
  | Memory.CPush to st _ => Some (RetryPush to st)
  | Memory.CReplace to st _ => Some (RetryReplace to st)
  | Memory.CGo n => Some (RetryGo n)
  | Memory.CBack => Some (RetryGo (-1))
  | Memory.CForward => Some (RetryGo 1)
  | Memory.CRetry r _ => Some r
  | _ => None
  end.

(** The four ways a push, a replace or a pop of a memory history ends: on
    the read of a location that is [undefined], on a write outside the
    entries, vetoed, or committed. *)
Inductive Ending (h : Memory.MemoryHistory) (a : Action) (r : Retry)
  : Memory.MemoryHistory * list Effect * Outcome unit -> Prop :=
| EndTypeError : Ending h a r (h, [], Threw TypeError)
| EndUnmodelled pre :
    listener_calls pre = [] -> blocker_calls pre = [] ->
    Ending h a r (h, pre, Threw Unmodelled)
| EndVetoed pre lo :
    Memory.blockers h <> [] ->
    listener_calls pre = [] -> blocker_calls pre = [] ->
    Ending h a r (h, pre ++ fan_log CallBlocker (Memory.blockers h) (mkTransition a lo r),
                  fan_outcome (Memory.blockers h))
| EndCommitted pre h' :
    Memory.blockers h = [] ->
    listener_calls pre = [] -> blocker_calls pre = [] ->
    Memory.action h' = a -> Memory.listeners h' = Memory.listeners h -> Memory.blockers h' = Memory.blockers h ->
    Ending h a r (h', pre ++ fan_log CallListener (Memory.listeners h)
                                 (mkUpdate a (Memory.location h')),
                  fan_outcome (Memory.listeners h)).

(** The state of a memory history made without entries. *)
Definition stuck (h : Memory.MemoryHistory) : Prop :=
  Memory.entries h = [] /\ Memory.index h = -1 /\ Memory.location h = None.

(* ===================================================================== *)
(** ** Calls and events of a URL-backed history *)
(* ===================================================================== *)

Module UrlCalls.
Section WithPlatform.

Context {W : Type} `{Platform W}.

(** The calls a host can make on a URL-backed history, and the two events
    of the platform that the history listens to. *)
Inductive Call :=
| CPush (to : To) (st : StateVal) (rnd : string)
| CReplace (to : To) (st : StateVal) (rnd : string)
| CGo (n : Z)
| CBack
| CForward
| CListen (fn : Handler)
| CUnlisten (fn : Handler)
| CBlock (fn : Handler)
| CUnblock (fn : Handler)
| CRetry (r : Retry) (rnd : string)
| EPopState
| EHashChange.

(** The hash history alone listens to [hashchange]. *)
Definition run (b : Backend) (c : Call) : M (Url.UrlHistory (W := W)) unit :=
  match c with
  | CPush to st rnd => Url.push b to st rnd
  | CReplace to st rnd => Url.replace b to st rnd
  | CGo n => Url.go n
  | CBack => Url.back
  | CForward => Url.forward
  | CListen fn => Url.listen fn
  | CUnlisten fn => Url.unlisten fn
  | CBlock fn => Url.block fn
  | CUnblock fn => Url.unblock fn
  | CRetry r rnd => Url.retry b r rnd
  | EPopState => Url.handlePop b
  | EHashChange => match b with
                   | Hash => Url.handleHashChange
                   | Browser => ret tt
                   end
  end.

Definition after (b : Backend) (c : Call) (h : Url.UrlHistory (W := W)) :=
  (run b c h).1.1.

Definition run_all (b : Backend) (cs : list Call) (h : Url.UrlHistory (W := W)) :=
  foldl (fun h c => after b c h) h cs.

End WithPlatform.
End UrlCalls.

(** A platform on which one can tell whether the [beforeunload] listener
    is set: setting and removing it is what changes that, nothing else the
    history asks of the platform does. *)
Class Unloading (W : Type) `{Platform W} := {
  beforeunload_set : W -> bool;
  beforeunload_set_beforeunload b w :
    beforeunload_set (set_beforeunload b w) = b;
  beforeunload_pushState hs url w w' :
    pushState hs url w = Some w' -> beforeunload_set w' = beforeunload_set w;
  beforeunload_replaceState hs url w :
    beforeunload_set (replaceState hs url w) = beforeunload_set w;
  beforeunload_history_go n w :
    beforeunload_set (history_go n w) = beforeunload_set w;
  beforeunload_location_assign url w :
    beforeunload_set (location_assign url w) = beforeunload_set w
}.

Global Instance sim_unloading : Unloading Sim.Window.
Proof.
  refine {| beforeunload_set := Sim.unload_armed |}.
  - reflexivity.
  - intros hs url w w' [= <-]. reflexivity.
  - reflexivity.
  - reflexivity.
  - reflexivity.
Defined.

(** What a call leaves of the [beforeunload] listener and of the
    blockers, and the agreement of the two that [block] maintains. *)
Definition same_guard {W : Type} `{Unloading W}
    (h h' : Url.UrlHistory (W := W)) : Prop :=
  beforeunload_set (Url.window h') = beforeunload_set (Url.window h) /\
  Url.blockers h' = Url.blockers h.

Definition guarded_ok {W : Type} `{Unloading W}
    (h : Url.UrlHistory (W := W)) : Prop :=
  beforeunload_set (Url.window h)
  = negb (Events.length (Url.blockers h) =? 0).

(* ===================================================================== *)
(** * Properties *)
(* ===================================================================== *)

(** ** Strings *)

Section StringFacts.

Lemma take_drop n s : (JS.take n s +:+ JS.drop n s)%string = s.
Proof.
  revert s; induction n as [|n IH]; intros [|a s]; try reflexivity.
  change (String a (JS.take n s +:+ JS.drop n s)%string = String a s).
  f_equal. apply IH.
Qed.

Lemma take_all n s : (String.length s <= n)%nat -> JS.take n s = s.
Proof.
  revert s; induction n as [|n IH]; intros [|a s]; simpl; intros Hn;
    try reflexivity; try lia.
  rewrite IH; [reflexivity | lia].
Qed.

Lemma length_drop n s : String.length (JS.drop n s) = (String.length s - n)%nat.
Proof.
  revert s; induction n as [|n IH]; intros [|a s]; simpl; try lia.
  apply IH.
Qed.

Lemma indexOf_from_range c s i :
  JS.indexOf_from c s i = -1 \/
  i <= JS.indexOf_from c s i < i + JS.size s.
Proof.
  revert i; induction s as [|a s IH]; intros i; simpl; [now left|].
  unfold JS.size; simpl String.length.
  destruct (Ascii.eqb a c); [right; lia|].
  destruct (IH (i + 1)) as [->|Hr]; [now left|].
  unfold JS.size in Hr. right; lia.
Qed.

Lemma indexOf_range c s :
  JS.indexOf c s = -1 \/ 0 <= JS.indexOf c s < JS.size s.
Proof. apply indexOf_from_range. Qed.

(** [substr(0, k)] and [substr(k)] inside the string are the two halves
    of the string at [k]. *)
Lemma substr_prefix s k :
  0 <= k <= JS.size s -> JS.substr s 0 k = JS.take (Z.to_nat k) s.
Proof.
  intros Hk. unfold JS.substr. simpl.
  replace (Z.min 0 (JS.size s)) with 0 by (unfold JS.size in *; lia).
  simpl. f_equal. unfold JS.size in *. lia.
Qed.

Lemma substr_suffix s k :
  0 <= k <= JS.size s -> JS.substr_from s k = JS.drop (Z.to_nat k) s.
Proof.
  intros Hk. unfold JS.substr_from, JS.substr.
  destruct (k <? 0) eqn:E; [lia|].
  replace (Z.min k (JS.size s)) with k by lia.
  apply take_all. rewrite length_drop. unfold JS.size in *. lia.
Qed.

Lemma substr_halves s k :
  0 <= k <= JS.size s ->
  (JS.substr s 0 k +:+ JS.substr_from s k)%string = s.
Proof.
  intros Hk. rewrite substr_prefix, substr_suffix by assumption.
  apply take_drop.
Qed.

End StringFacts.

(** ** Path codec *)

Section PathCodec.

Lemma append_assoc (a b c : string) :
  ((a +:+ b) +:+ c)%string = (a +:+ (b +:+ c))%string.
Proof.
  induction a as [|x a IH]; [reflexivity|].
  change (String x ((a +:+ b) +:+ c)%string = String x (a +:+ (b +:+ c))%string).
  now rewrite IH.
Qed.

Lemma append_empty_r (a : string) : (a +:+ "")%string = a.
Proof.
  induction a as [|x a IH]; [reflexivity|].
  change (String x (a +:+ "")%string = String x a). now rewrite IH.
Qed.

(** Cutting a string at the first [c], when the string does not begin
    with [c]: the head keeps the first character, and head and tail make
    up the string. *)
Lemma cut_head c a s' :
  Ascii.eqb a c = false ->
  0 <= JS.indexOf c (String a s') ->
  exists t,
    JS.substr (String a s') 0 (JS.indexOf c (String a s')) = String a t /\
    (String a t +:+ JS.substr_from (String a s') (JS.indexOf c (String a s')))%string
      = String a s'.
Proof.
  intros Ha Hi.
  pose proof (indexOf_range c (String a s')) as Hr.
  assert (H1 : 1 <= JS.indexOf c (String a s')).
  { destruct Hr as [Hr|Hr]; [lia|].
    unfold JS.indexOf in *. simpl in *. rewrite Ha in *.
    destruct (indexOf_from_range c s' (0 + 1)) as [E|E]; lia. }
  destruct Hr as [Hr|Hr]; [lia|].
  set (i := JS.indexOf c (String a s')) in *.
  pose proof (substr_halves (String a s') i ltac:(lia)) as Hh.
  rewrite substr_prefix in * by lia.
  destruct (Z.to_nat i) as [|n] eqn:En; [lia|].
  exists (JS.take n s'). split; [reflexivity|]. exact Hh.
Qed.

Lemma includes_app c (s1 s2 : string) :
  JS.includes c (s1 +:+ s2)%string = false ->
  JS.includes c s1 = false /\ JS.includes c s2 = false.
Proof.
  induction s1 as [|a s1 IH]; [now split|].
  change (JS.includes c (String a (s1 +:+ s2)%string) = false ->
          JS.includes c (String a s1) = false /\ JS.includes c s2 = false).
  cbn [JS.includes]. intros Hor. apply orb_false_iff in Hor as [Ha Hrest].
  destruct (IH Hrest) as [H1 H2]. rewrite Ha, H1. now split.
Qed.

Lemma indexOf_from_absent c s i :
  0 <= i -> (JS.indexOf_from c s i <? 0) = negb (JS.includes c s).
Proof.
  revert i; induction s as [|a s IH]; intros i Hi; simpl; [reflexivity|].
  destruct (Ascii.eqb a c); simpl; [apply Z.ltb_ge; lia|].
  apply IH. lia.
Qed.

Lemma take_indexOf_from c s i :
  0 <= i -> i <= JS.indexOf_from c s i ->
  JS.includes c (JS.take (Z.to_nat (JS.indexOf_from c s i - i)) s) = false /\
  JS.starts_with c (JS.drop (Z.to_nat (JS.indexOf_from c s i - i)) s) = true.
Proof.
  revert i; induction s as [|a s IH]; intros i Hi; simpl; [lia|].
  destruct (Ascii.eqb a c) eqn:Ea.
  - intros _. replace (i - i) with 0 by lia. simpl. now rewrite Ea.
  - intros Hle.
    assert (Hle' : i + 1 <= JS.indexOf_from c s (i + 1)).
    { destruct (indexOf_from_range c s (i + 1)) as [E|E]; lia. }
    destruct (IH (i + 1) ltac:(lia) Hle') as [H1 H2].
    replace (Z.to_nat (JS.indexOf_from c s (i + 1) - i))
      with (S (Z.to_nat (JS.indexOf_from c s (i + 1) - (i + 1)))) by lia.
    simpl. rewrite Ea. now split.
Qed.

(** The cut that [parsePath] makes at a character [c]: the tail from the
    first [c], if there is one, and the head before it. *)
Lemma cut_at c (s : string) :
  exists head tail,
    (if 0 <=? JS.indexOf c s
     then (Some (JS.substr_from s (JS.indexOf c s)),
           JS.substr s 0 (JS.indexOf c s))
     else (None, s)) = (tail, head) /\
    (head +:+ default "" tail)%string = s /\
    JS.includes c head = false /\
    (forall t, tail = Some t -> JS.starts_with c t = true).
Proof.
  destruct (0 <=? JS.indexOf c s) eqn:E.
  - apply Z.leb_le in E.
    destruct (indexOf_range c s) as [Hr|Hr]; [lia|].
    eexists _, _. split; [reflexivity|].
    destruct (take_indexOf_from c s 0 ltac:(lia) E) as [H1 H2].
    fold (JS.indexOf c s) in H1, H2. rewrite Z.sub_0_r in H1, H2.
    rewrite substr_prefix, substr_suffix by lia.
    split; [apply take_drop|]. split; [exact H1|].
    intros t [= <-]. exact H2.
  - apply Z.leb_gt in E.
    exists s, None. split; [reflexivity|].
    split; [apply append_empty_r|]. split; [|discriminate].
    pose proof (indexOf_from_absent c s 0 ltac:(lia)) as Ha.
    fold (JS.indexOf c s) in Ha.
    apply Z.ltb_lt in E. rewrite E in Ha. now destruct (JS.includes c s).
Qed.

Lemma valid_path_inv p :
  valid_path p = true ->
  exists a s', p = String a s' /\ Ascii.eqb a "#" = false /\ Ascii.eqb a "?" = false.
Proof.
  destruct p as [|a s']; simpl; [discriminate|].
  intros Hv. apply andb_prop in Hv as [H1 H2].
  exists a, s'. repeat split; now apply negb_true_iff.
Qed.

(** An absolute path is valid. *)
Lemma absolute_valid p : JS.starts_with "/" p = true -> valid_path p = true.
Proof.
  destruct p as [|a s']; simpl; [discriminate|].
  intros Ha. apply Ascii.eqb_eq in Ha. now subst a.
Qed.

Local Ltac pieces_simpl :=
  unfold createPath;
  cbn [JS.truthy pp_pathname pp_search pp_hash default from_option id].

(** C1. Round trip of the path codec: for every valid path string [p],
    one that carries a pathname, [createPath (parsePath p)] is [p], where
    [parsePath] splits off the hash at the first [#] and then the search at
    the first [?], and [createPath] concatenates the pathname, the search
    and the hash with their defaults. *)
Theorem createPath_parsePath (p : Path) :
  valid_path p = true -> createPath (parsePath p) = p.
Proof.
  intros Hv. apply valid_path_inv in Hv as (a & s' & -> & Hh & Hq).
  unfold parsePath. cbn [JS.truthy].
  destruct (0 <=? JS.indexOf "#" (String a s')) eqn:Eh.
  - apply Z.leb_le in Eh.
    destruct (cut_head _ _ _ Hh Eh) as (t & -> & Hp).
    destruct (0 <=? JS.indexOf "?" (String a t)) eqn:Eq.
    + apply Z.leb_le in Eq.
      destruct (cut_head _ _ _ Hq Eq) as (t2 & -> & Hp2).
      pieces_simpl.
      rewrite <- append_assoc, Hp2. exact Hp.
    + pieces_simpl.
      exact Hp.
  - destruct (0 <=? JS.indexOf "?" (String a s')) eqn:Eq.
    + apply Z.leb_le in Eq.
      destruct (cut_head _ _ _ Hq Eq) as (t2 & -> & Hp2).
      pieces_simpl.
      rewrite append_empty_r. exact Hp2.
    + pieces_simpl.
      now rewrite !append_empty_r.
Qed.

Lemma createPath_parsePath_witness :
  valid_path "/a/b?x=1&y=2#top" = true /\
  createPath (parsePath "/a/b?x=1&y=2#top") = "/a/b?x=1&y=2#top".
Proof.
  split; [reflexivity | apply (createPath_parsePath "/a/b?x=1&y=2#top"); reflexivity].
Defined.

(** What [parsePath] yields on a full path: the hash from the first [#],
    the search from the first [?] before it, the pathname before that. *)
Example parsePath_full :
  parsePath "/a/b?x=1#h?y#z" = mkPieces (Some "/a/b") (Some "?x=1") (Some "#h?y#z").
Proof. reflexivity. Qed.

(** Outside the valid paths the round trip does not hold: a string with
    no pathname comes back with the default one. *)
Example createPath_parsePath_search_only : createPath (parsePath "?x=1") = "/?x=1".
Proof. reflexivity. Qed.

Example createPath_parsePath_empty : createPath (parsePath "") = "/".
Proof. reflexivity. Qed.

(** The pieces that [parsePath] yields, for every string: put together
    without defaults they are the string; the hash begins at a [#], the
    search begins at a [?] and holds no [#], the pathname is not empty and
    holds neither. *)
Lemma parsePath_pieces (p : Path) :
  let pieces := parsePath p in
  (default "" (pp_pathname pieces) +:+ default "" (pp_search pieces)
     +:+ default "" (pp_hash pieces))%string = p /\
  (forall h, pp_hash pieces = Some h -> JS.starts_with "#" h = true) /\
  (forall q, pp_search pieces = Some q ->
     JS.starts_with "?" q = true /\ JS.includes "#" q = false) /\
  (forall x, pp_pathname pieces = Some x ->
     x <> "" /\ JS.includes "#" x = false /\ JS.includes "?" x = false).
Proof.
  destruct p as [|a s']; [repeat split; discriminate|].
  set (p := String a s').
  destruct (cut_at "#" p) as (head & tail & Hcut & Hp & Hhead & Htail).
  destruct (cut_at "?" head) as (head2 & tail2 & Hcut2 & Hp2 & Hhead2 & Htail2).
  assert (Hparse : parsePath p
            = mkPieces (if JS.truthy head2 then Some head2 else None) tail2 tail).
  { unfold parsePath, Path. change (JS.truthy p) with true. cbv iota.
    rewrite Hcut. cbv iota beta. rewrite Hcut2. reflexivity. }
  rewrite Hparse. cbn [pp_pathname pp_search pp_hash].
  assert (Hinc : JS.includes "#" head = false) by exact Hhead.
  assert (Hinc2 : JS.includes "#" head2 = false /\
                  JS.includes "#" (default "" tail2) = false).
  { rewrite <- Hp2 in Hinc. now apply includes_app in Hinc. }
  split; [|split; [|split]].
  - assert (Hd : default "" (if JS.truthy head2 then Some head2 else None) = head2)
      by now destruct head2.
    rewrite Hd, <- append_assoc, Hp2. exact Hp.
  - intros h Hh. exact (Htail h Hh).
  - intros q Hq. split; [exact (Htail2 q Hq)|].
    rewrite Hq in Hinc2. exact (proj2 Hinc2).
  - intros x Hx. destruct head2 as [|b r]; [discriminate|].
    injection Hx as <-. repeat split; [discriminate | exact (proj1 Hinc2) | exact Hhead2].
Qed.

(** The round trip holds on the valid paths only. *)
Lemma roundtrip_only_valid (p : Path) :
  createPath (parsePath p) = p -> valid_path p = true.
Proof.
  destruct p as [|a s']; [discriminate|].
  destruct (valid_path (String a s')) eqn:Ev; [reflexivity|].
  intros Hrt. exfalso.
  assert (Hs : exists r, createPath (parsePath (String a s')) = String "/" r /\ a <> "/"%char).
  { simpl in Ev. apply andb_false_iff in Ev.
    unfold parsePath. cbn [JS.truthy].
    destruct (Ascii.eqb a "#") eqn:Ea.
    - apply Ascii.eqb_eq in Ea; subst a.
      eexists; split; [reflexivity | discriminate].
    - destruct Ev as [Ev|Ev]; [discriminate|].
      apply negb_false_iff, Ascii.eqb_eq in Ev; subst a.
      destruct (0 <=? JS.indexOf "#" (String "?" s')) eqn:Eh.
      + apply Z.leb_le in Eh.
        destruct (cut_head "#" "?" s' eq_refl Eh) as (t & -> & _).
        eexists; split; [reflexivity | discriminate].
      + eexists; split; [reflexivity | discriminate]. }
  destruct Hs as (r & Hr & Hne). rewrite Hr in Hrt. congruence.
Qed.

End PathCodec.

(** ** Event registry *)

Section Registry.

Implicit Types (fn : Handler) (handlers : Events.t).

Lemma remove_not_elem fn handlers : fn ∉ Events.remove fn handlers.
Proof.
  unfold Events.remove. intros Hin.
  apply list_elem_of_filter in Hin as [Hne _]. now apply Hne.
Qed.

Lemma remove_absent fn handlers :
  fn ∉ handlers -> Events.remove fn handlers = handlers.
Proof.
  unfold Events.remove. intros Hnin.
  induction handlers as [|g hs IH]; [reflexivity|].
  apply not_elem_of_cons in Hnin as [Hne Hnin].
  rewrite filter_cons_True by congruence. now rewrite IH.
Qed.

Lemma remove_twice fn handlers :
  Events.remove fn (Events.remove fn handlers) = Events.remove fn handlers.
Proof. apply remove_absent, remove_not_elem. Qed.

Lemma remove_app fn hs1 hs2 :
  Events.remove fn (hs1 ++ hs2) = Events.remove fn hs1 ++ Events.remove fn hs2.
Proof. apply filter_app. Qed.

Lemma remove_other fn g : g <> fn -> Events.remove fn [g] = [g].
Proof. intros Hne. unfold Events.remove. now rewrite filter_cons_True. Qed.

Lemma remove_self fn : Events.remove fn [fn] = [].
Proof. unfold Events.remove. now rewrite filter_cons_False by tauto. Qed.

(** The function returned for one registration removes every registration
    of the same reference. *)
Lemma remove_all_duplicates fn handlers :
  Events.remove fn (Events.push fn (Events.push fn handlers))
    = Events.remove fn handlers.
Proof.
  unfold Events.push. rewrite !remove_app, remove_self. now rewrite !app_nil_r.
Qed.

(** C9. Registrations of one handler reference coexist; the function that
    [push] returns removes that reference and keeps the other handlers in
    their order; run a second time, or when the handler is not registered,
    it leaves the registry as it is. *)
Theorem registry_add_remove fn handlers :
  Events.push fn (Events.push fn handlers) = handlers ++ [fn; fn] /\
  Events.length (Events.push fn (Events.push fn handlers))
    = Events.length handlers + 2 /\
  (fn ∉ Events.remove fn handlers) /\
  (forall g, g <> fn ->
     forall hs1 hs2, handlers = hs1 ++ g :: hs2 ->
     Events.remove fn handlers
       = Events.remove fn hs1 ++ g :: Events.remove fn hs2) /\
  Events.remove fn (Events.remove fn handlers) = Events.remove fn handlers /\
  (fn ∉ handlers -> Events.remove fn handlers = handlers).
Proof.
  repeat split.
  - unfold Events.push. now rewrite <- app_assoc.
  - unfold Events.push, Events.length. rewrite !length_app. simpl. lia.
  - apply remove_not_elem.
  - intros g Hne hs1 hs2 ->.
    change (g :: hs2) with ([g] ++ hs2).
    now rewrite !remove_app, (remove_other fn g Hne).
  - apply remove_twice.
  - apply remove_absent.
Qed.

Lemma registry_add_remove_witness :
  let f := mkHandler 1 false in
  let g := mkHandler 2 false in
  Events.remove f [g; f; g; f] = [g; g] /\
  Events.remove f [g; g] = [g; g].
Proof.
  intros f g.
  destruct (registry_add_remove f [g; f; g; f]) as (_ & _ & _ & Hk & _ & _).
  destruct (registry_add_remove f [g; g]) as (_ & _ & _ & _ & _ & Ha).
  split.
  - rewrite (Hk g ltac:(discriminate) [] [f; g; f] eq_refl). reflexivity.
  - apply Ha. vm_compute. intros Hin.
    repeat (apply elem_of_cons in Hin as [Hin|Hin]; [discriminate|]).
    now apply elem_of_nil in Hin.
Defined.

Lemma call_no_raise handlers :
  Forall (fun fn => raises fn = false) handlers ->
  Events.call handlers = (handlers, None).
Proof.
  induction 1 as [|g hs Hg _ IH]; simpl; [reflexivity|].
  now rewrite Hg, IH.
Qed.

(** The handler whose exception ends a call is registered and raises. *)
Lemma call_raiser handlers fn :
  (Events.call handlers).2 = Some fn -> raises fn = true /\ fn ∈ handlers.
Proof.
  induction handlers as [|g hs IH]; simpl; [discriminate|].
  destruct (raises g) eqn:Eg.
  - intros [= <-]. split; [assumption | apply elem_of_cons; now left].
  - destruct (Events.call hs) as [invoked r]. simpl in *. intros Hr.
    destruct (IH Hr) as [Hf Hin]. split; [assumption|].
    apply elem_of_cons. now right.
Qed.

(** Where a fan-out that throws has stopped. *)
Lemma call_stops_at_raiser (handlers : Events.t) fn :
  (Events.call handlers).2 = Some fn ->
  exists before after,
    handlers = before ++ fn :: after /\
    Forall (fun g => raises g = false) before /\ raises fn = true /\
    (Events.call handlers).1 = before ++ [fn].
Proof.
  induction handlers as [|g hs IH]; simpl; [discriminate|].
  destruct (raises g) eqn:Eg.
  - intros [= <-]. exists [], hs. repeat split; [constructor | assumption].
  - destruct (Events.call hs) as [invoked r]. simpl in *. intros Hr.
    destruct (IH Hr) as (before & after & -> & Hb & Hfn & ->).
    exists (g :: before), after. repeat split; [constructor|]; assumption.
Qed.

(** C6, as amended. [call] invokes the registered handlers synchronously
    in registration order; when none raises every handler is invoked;
    the first handler that raises ends the call with its exception, and
    the handlers registered after it are not invoked. *)
Theorem call_in_order_until_raise handlers :
  match Events.call handlers with
  | (invoked, None) =>
      invoked = handlers /\ Forall (fun fn => raises fn = false) handlers
  | (invoked, Some fn) =>
      exists before after,
        handlers = before ++ fn :: after /\
        Forall (fun g => raises g = false) before /\
        raises fn = true /\
        invoked = before ++ [fn]
  end.
Proof.
  induction handlers as [|g hs IH]; simpl; [split; [reflexivity|constructor]|].
  destruct (raises g) eqn:Eg.
  - exists [], hs. repeat split; [constructor | assumption].
  - destruct (Events.call hs) as [invoked [fn|]].
    + destruct IH as (before & after & -> & Hb & Hfn & ->).
      exists (g :: before), after. repeat split; [constructor|]; assumption.
    + destruct IH as [-> Hall]. split; [reflexivity|]. now constructor.
Qed.

(** C6 as stated fails: the second handler is registered and is not
    invoked once the first has raised. *)
Lemma call_does_not_isolate :
  let h1 := mkHandler 1 true in
  let h2 := mkHandler 2 false in
  Events.call [h1; h2] = ([h1], Some h1) /\
  (Events.call [h1; h2]).1 <> [h1; h2].
Proof. split; [reflexivity | discriminate]. Qed.

End Registry.

(** ** Location construction *)

Section NextLocation.

(** The key kept of a draw: its characters from the third on, eight of
    them at most. *)
Lemma createKey_chars (rnd : string) : createKey rnd = JS.take 8 (JS.drop 2 rnd).
Proof.
  unfold createKey, JS.substr. cbn [Z.ltb Z.compare].
  set (n := JS.size rnd).
  assert (Hn : 0 <= n) by (subst n; unfold JS.size; lia).
  assert (Hd : forall k s, (String.length s <= k)%nat -> JS.drop k s = "").
  { intros k s. revert k. induction s as [|a r IH]; intros [|k] Hk; simpl in *;
      try reflexivity; try lia. apply IH. lia. }
  destruct (Z.le_gt_cases 2 n) as [H2|H2].
  - replace (Z.to_nat (Z.min 2 n)) with 2%nat by lia.
    destruct (Z.le_gt_cases 10 n) as [H10|H10].
    + f_equal. lia.
    + rewrite !take_all; try reflexivity; rewrite length_drop;
        subst n; unfold JS.size in *; lia.
  - rewrite !take_all; try reflexivity; rewrite ?length_drop;
      subst n; unfold JS.size in *; try lia.
    rewrite !Hd by lia. reflexivity.
Qed.

Lemma take_length_le n (s : string) : (String.length (JS.take n s) <= n)%nat.
Proof.
  revert s; induction n as [|n IH]; intros [|a s]; simpl; try lia.
  specialize (IH s). lia.
Qed.

(** A string that is empty or begins with [?] or [#] holds no pathname,
    and a string without [#] holds no hash. *)
Lemma parsePath_no_pathname (p : Path) :
  valid_path p = false -> pp_pathname (parsePath p) = None.
Proof.
  intros Hv. destruct (parsePath_pieces p) as (Hcat & _ & _ & Hx).
  destruct (pp_pathname (parsePath p)) as [x|]; [|reflexivity]. exfalso.
  destruct (Hx x eq_refl) as (Hne & H1 & H2).
  destruct x as [|a x']; [congruence|].
  cbn [JS.includes] in H1, H2.
  apply orb_false_iff in H1 as [H1 _]. apply orb_false_iff in H2 as [H2 _].
  cbn [default from_option id] in Hcat.
  change (String a (x' +:+ default "" (pp_search (parsePath p))
                       +:+ default "" (pp_hash (parsePath p)))%string = p) in Hcat.
  rewrite <- Hcat in Hv. cbn [valid_path] in Hv. rewrite H1, H2 in Hv.
  discriminate Hv.
Qed.

Lemma parsePath_no_hash (p : Path) :
  JS.includes "#" p = false -> pp_hash (parsePath p) = None.
Proof.
  intros Hn. destruct (parsePath_pieces p) as (Hcat & Hh & _ & _).
  destruct (pp_hash (parsePath p)) as [h|]; [|reflexivity]. exfalso.
  specialize (Hh h eq_refl). rewrite <- Hcat in Hn.
  apply includes_app in Hn as [_ Hn]. apply includes_app in Hn as [_ Hn].
  cbn [default from_option id] in Hn.
  destruct h as [|a t]; [discriminate|].
  cbn [JS.starts_with] in Hh. cbn [JS.includes] in Hn.
  rewrite Hh in Hn. discriminate Hn.
Qed.

(** C8, as amended. The next location of a push or a replace has the key
    that [createKey] draws for the call: the characters of the draw from
    the third on, eight at most, whatever the current location, [to] and
    the state are.  The key is not copied from the current location and is
    not compared with it: two next locations have the same key exactly when
    their draws agree on those characters, and the next key is the current
    key exactly when the draw yields it.  The state is the one given, and
    each path piece missing from [to] is that of the current location; in a
    string the pathname is missing when the string is empty or begins with
    [?] or [#], and the hash when the string holds no [#]. *)
Theorem getNextLocation_key_and_defaults
    (current : Location) (to : To) (st : StateVal) (rnd : string) :
  let next := getNextLocation current to st rnd in
  key next = JS.take 8 (JS.drop 2 rnd) /\
  (String.length (key next) <= 8)%nat /\
  (forall current' to' st' rnd',
     key (getNextLocation current' to' st' rnd') = key next <->
     JS.take 8 (JS.drop 2 rnd') = JS.take 8 (JS.drop 2 rnd)) /\
  (key next = key current <-> JS.take 8 (JS.drop 2 rnd) = key current) /\
  state next = st /\
  pathname next = match pp_pathname (pieces_of to) with
                  | Some p => p | None => pathname current end /\
  search next = match pp_search (pieces_of to) with
                | Some s => s | None => search current end /\
  hash next = match pp_hash (pieces_of to) with
              | Some x => x | None => hash current end /\
  (forall p, to = ToPath p ->
     (valid_path p = false -> pathname next = pathname current) /\
     (JS.includes "#" p = false -> hash next = hash current)).
Proof.
  intros next.
  assert (Hk : forall c t s r, key (getNextLocation c t s r) = JS.take 8 (JS.drop 2 r)).
  { intros c t s r. unfold getNextLocation. cbn [key]. apply createKey_chars. }
  split; [apply Hk|]. split; [subst next; rewrite Hk; apply take_length_le|].
  split; [intros c' t' s' r'; subst next; now rewrite !Hk|].
  split; [subst next; now rewrite Hk|].
  do 4 (split; [reflexivity|]).
  intros p ->. subst next. unfold getNextLocation. cbn [pathname hash pieces_of].
  split; intros Hp.
  - now rewrite (parsePath_no_pathname p Hp).
  - now rewrite (parsePath_no_hash p Hp).
Qed.

(** C8 as stated fails: the key of the current location is drawn again,
    by another random number whose rendering has the same first eight
    characters after [0.], and the next location has the key of the
    current one. *)
Lemma getNextLocation_key_reused :
  let start := mkLocation "/" "" "" Null "default" in
  let current := getNextLocation start (ToPath "/a") Null "0.k3j9x0q2zz1" in
  let next := getNextLocation current (ToPath "/b") Null "0.k3j9x0q2zz7" in
  "0.k3j9x0q2zz1" <> "0.k3j9x0q2zz7" /\
  pathname current = "/a" /\ pathname next = "/b" /\
  key current = "k3j9x0q2" /\ key next = key current.
Proof. repeat split. discriminate. Qed.

(** A path string that has only a search keeps the pathname and the hash
    of the current location, with a key of its own. *)
Example getNextLocation_search_only :
  getNextLocation (mkLocation "/a" "?x" "#h" Null "default")
                  (ToPath "?y=2") Undefined "0.k3j9x0q2zzz"
  = mkLocation "/a" "?y=2" "#h" Undefined "k3j9x0q2".
Proof. reflexivity. Qed.

End NextLocation.

(** ** Running an operation *)

Section Running.

Context {S : Type}.

Lemma fanout_run {A} (mk : Handler -> A -> Effect) handlers (arg : A) (s : S) :
  fanout mk handlers arg s = (s, fan_log mk handlers arg, fan_outcome handlers).
Proof.
  unfold fanout, fan_log, fan_outcome, bind, emit, throw, ret.
  destruct (Events.call handlers) as [invoked [fn|]]; simpl;
    now rewrite app_nil_r.
Qed.

Lemma warning_run cond w (s : S) :
  warning cond w s = (s, warn_log cond w, Returned tt).
Proof. unfold warning, warn_log. now destruct cond. Qed.

Lemma length_zero (handlers : Events.t) :
  (Events.length handlers =? 0) = true <-> handlers = [].
Proof.
  unfold Events.length. rewrite Z.eqb_eq. destruct handlers; simpl; [tauto|].
  split; [lia | discriminate].
Qed.

Lemma length_nil_eqb : (Events.length [] =? 0) = true.
Proof. reflexivity. Qed.

Lemma length_nonzero (handlers : Events.t) :
  handlers <> [] -> (Events.length handlers =? 0) = false.
Proof.
  intros Hne. destruct (Events.length handlers =? 0) eqn:E; [|reflexivity].
  now apply length_zero in E.
Qed.

Lemma listener_calls_app l1 l2 :
  listener_calls (l1 ++ l2) = listener_calls l1 ++ listener_calls l2.
Proof. apply omap_app. Qed.

Lemma blocker_calls_app l1 l2 :
  blocker_calls (l1 ++ l2) = blocker_calls l1 ++ blocker_calls l2.
Proof. apply omap_app. Qed.

Lemma listener_calls_warn c w : listener_calls (warn_log c w) = [].
Proof. now destruct c. Qed.

Lemma blocker_calls_warn c w : blocker_calls (warn_log c w) = [].
Proof. now destruct c. Qed.

Lemma listener_calls_fan_listeners hs u :
  listener_calls (fan_log CallListener hs u)
    = map (fun fn => (fn, u)) (Events.call hs).1.
Proof.
  unfold fan_log, listener_calls.
  induction (Events.call hs).1 as [|g l IH]; [reflexivity|].
  cbn. f_equal. exact IH.
Qed.

Lemma listener_calls_fan_blockers hs tx :
  listener_calls (fan_log CallBlocker hs tx) = [].
Proof.
  unfold fan_log, listener_calls.
  induction (Events.call hs).1 as [|g l IH]; [reflexivity|]. exact IH.
Qed.

Lemma blocker_calls_fan_blockers hs tx :
  blocker_calls (fan_log CallBlocker hs tx)
    = map (fun fn => (fn, tx)) (Events.call hs).1.
Proof.
  unfold fan_log, blocker_calls.
  induction (Events.call hs).1 as [|g l IH]; [reflexivity|].
  cbn. f_equal. exact IH.
Qed.

Lemma blocker_calls_fan_listeners hs u :
  blocker_calls (fan_log CallListener hs u) = [].
Proof.
  unfold fan_log, blocker_calls.
  induction (Events.call hs).1 as [|g l IH]; [reflexivity|]. exact IH.
Qed.

End Running.

Create Rewrite HintDb calls.
#[export] Hint Rewrite @listener_calls_app @blocker_calls_app
  @listener_calls_warn @blocker_calls_warn
  @listener_calls_fan_listeners @listener_calls_fan_blockers
  @blocker_calls_fan_blockers @blocker_calls_fan_listeners
  @app_nil_r @app_nil_l : calls.

(** ** The in-memory history *)

Module MemoryFacts.
Import Memory.

Section Equations.

Implicit Types (h : MemoryHistory) (to : To) (st : StateVal) (rnd : string).

Local Ltac run_op :=
  unfold push, replace, go, allowTx, applyTx, current_location;
  unfold bind, get, modify, throw, ret;
  unfold set_cursor, set_entries, set_index, set_blockers, set_listeners;
  repeat (rewrite ?fanout_run, ?warning_run; cbn -[splice array_set array_get clamp]).

Lemma push_throws h to st rnd :
  location h = None -> push to st rnd h = (h, [], Threw TypeError).
Proof. intros Hl. run_op. now rewrite Hl. Qed.

Lemma replace_throws h to st rnd :
  location h = None -> replace to st rnd h = (h, [], Threw TypeError).
Proof. intros Hl. run_op. now rewrite Hl. Qed.

(** What a vetoed call does: the blockers are called with the transition
    and nothing else happens. *)
Lemma mem_push_blocked h cur to st rnd :
  location h = Some cur -> blockers h <> [] ->
  push to st rnd h =
    (h,
     notices "push" to cur ++
       fan_log CallBlocker (blockers h)
         (mkTransition Push (Some (getNextLocation cur to st rnd)) (RetryPush to st)),
     fan_outcome (blockers h)).
Proof.
  intros Hl Hb. run_op. rewrite Hl. run_op.
  rewrite (length_nonzero _ Hb). run_op.
  unfold fan_outcome. destruct (Events.call (blockers h)).2; run_op;
    now rewrite ?app_nil_r.
Qed.

Lemma mem_replace_blocked h cur to st rnd :
  location h = Some cur -> blockers h <> [] ->
  replace to st rnd h =
    (h,
     notices "replace" to cur ++
       fan_log CallBlocker (blockers h)
         (mkTransition Replace (Some (getNextLocation cur to st rnd))
                       (RetryReplace to st)),
     fan_outcome (blockers h)).
Proof.
  intros Hl Hb. run_op. rewrite Hl. run_op.
  rewrite (length_nonzero _ Hb). run_op.
  unfold fan_outcome. destruct (Events.call (blockers h)).2; run_op;
    now rewrite ?app_nil_r.
Qed.

Lemma go_blocked h n :
  blockers h <> [] ->
  go n h =
    (h,
     fan_log CallBlocker (blockers h)
       (mkTransition Pop
          (array_get (entries h)
             (clamp (index h + n) 0 (Z.of_nat (length (entries h)) - 1)))
          (RetryGo n)),
     fan_outcome (blockers h)).
Proof.
  intros Hb. run_op.
  rewrite (length_nonzero _ Hb). run_op.
  unfold fan_outcome. destruct (Events.call (blockers h)).2; run_op;
    now rewrite ?app_nil_r.
Qed.

(** What a call does when no blocker is registered. *)
Lemma mem_push_unblocked h cur to st rnd :
  location h = Some cur -> blockers h = [] ->
  let next := getNextLocation cur to st rnd in
  push to st rnd h =
    ({| entries := splice (entries h) (index h + 1)
                          (Z.of_nat (length (entries h))) next;
        index := index h + 1;
        action := Push;
        location := Some next;
        blockers := [];
        listeners := listeners h |},
     notices "push" to cur ++
       fan_log CallListener (listeners h) (mkUpdate Push (Some next)),
     fan_outcome (listeners h)).
Proof.
  intros Hl Hb next. run_op. rewrite Hl. run_op.
  rewrite Hb, length_nil_eqb. run_op. rewrite Hb. reflexivity.
Qed.

Lemma mem_replace_unblocked h cur es to st rnd :
  location h = Some cur -> blockers h = [] ->
  let next := getNextLocation cur to st rnd in
  array_set (entries h) (index h) next = Some es ->
  replace to st rnd h =
    ({| entries := es;
        index := index h;
        action := Replace;
        location := Some next;
        blockers := [];
        listeners := listeners h |},
     notices "replace" to cur ++
       fan_log CallListener (listeners h) (mkUpdate Replace (Some next)),
     fan_outcome (listeners h)).
Proof.
  intros Hl Hb next Hes. run_op. rewrite Hl. run_op.
  rewrite Hb, length_nil_eqb. run_op.
  fold next. rewrite Hes. run_op. rewrite Hb. reflexivity.
Qed.

Lemma replace_unmodelled h cur to st rnd :
  location h = Some cur -> blockers h = [] ->
  array_set (entries h) (index h) (getNextLocation cur to st rnd) = None ->
  replace to st rnd h = (h, notices "replace" to cur, Threw Unmodelled).
Proof.
  intros Hl Hb Hes. run_op. rewrite Hl. run_op.
  rewrite Hb, length_nil_eqb. run_op.
  rewrite Hes. run_op. now rewrite app_nil_r.
Qed.

Lemma go_unblocked h n :
  blockers h = [] ->
  let nextIndex := clamp (index h + n) 0 (Z.of_nat (length (entries h)) - 1) in
  go n h =
    ({| entries := entries h;
        index := nextIndex;
        action := Pop;
        location := array_get (entries h) nextIndex;
        blockers := [];
        listeners := listeners h |},
     fan_log CallListener (listeners h)
             (mkUpdate Pop (array_get (entries h) nextIndex)),
     fan_outcome (listeners h)).
Proof.
  intros Hb nextIndex. run_op. rewrite Hb, length_nil_eqb. run_op.
  rewrite Hb. reflexivity.
Qed.

End Equations.

Section Arrays.

Context {A : Type}.
Implicit Types (l : list A) (i : Z) (x : A).

Lemma array_get_in_range l i :
  0 <= i <= Z.of_nat (length l) - 1 ->
  exists x, array_get l i = Some x /\ l !! Z.to_nat i = Some x.
Proof.
  intros Hi. unfold array_get.
  destruct (i <? 0) eqn:E; [lia|].
  destruct (lookup_lt_is_Some_2 l (Z.to_nat i)) as [x Hx]; [lia|].
  exists x. now rewrite Hx.
Qed.

(** [splice(start, length, item)] with the start inside the array: the
    elements from the start on are removed and the item is appended. *)
Lemma splice_truncates l i x :
  0 <= i <= Z.of_nat (length l) ->
  splice l i (Z.of_nat (length l)) x = take (Z.to_nat i) l ++ [x].
Proof.
  intros Hi. unfold splice.
  destruct (i <? 0) eqn:E; [lia|].
  replace (Z.min i (Z.of_nat (length l))) with i by lia.
  rewrite drop_ge; [reflexivity | lia].
Qed.

Lemma array_set_in_range l i x :
  0 <= i <= Z.of_nat (length l) - 1 ->
  array_set l i x = Some (<[Z.to_nat i := x]> l).
Proof.
  intros Hi. unfold array_set.
  destruct (0 <=? i) eqn:E1; [|lia].
  destruct (i <? Z.of_nat (length l)) eqn:E2; [reflexivity | lia].
Qed.

Lemma array_get_set l i x :
  0 <= i <= Z.of_nat (length l) - 1 ->
  array_get (<[Z.to_nat i := x]> l) i = Some x.
Proof.
  intros Hi. unfold array_get. destruct (i <? 0) eqn:E; [lia|].
  apply list_lookup_insert_eq. lia.
Qed.

Lemma array_get_appended l i x :
  0 <= i <= Z.of_nat (length l) ->
  array_get (take (Z.to_nat i) l ++ [x]) i = Some x.
Proof.
  intros Hi. unfold array_get. destruct (i <? 0) eqn:E; [lia|].
  rewrite lookup_app_r; rewrite length_take; [|lia].
  replace (Z.to_nat i - Z.to_nat i `min` length l)%nat with 0%nat by lia.
  reflexivity.
Qed.

Lemma clamp_range n hi : 0 <= hi -> 0 <= clamp n 0 hi <= hi.
Proof. unfold clamp. lia. Qed.

End Arrays.

Section Cursor.

Implicit Types (h : MemoryHistory) (to : To) (st : StateVal) (rnd : string).

Lemma cursor_ok_location h :
  cursor_ok h ->
  exists cur, location h = Some cur /\
              entries h !! Z.to_nat (index h) = Some cur.
Proof.
  intros [Hi Hl].
  destruct (array_get_in_range (entries h) (index h) Hi) as (x & Hx & Hx').
  exists x. split; [congruence | assumption].
Qed.

Lemma cursor_ok_push h to st rnd : cursor_ok h -> cursor_ok (push to st rnd h).1.1.
Proof.
  intros Hok. destruct (cursor_ok_location h Hok) as (cur & Hl & _).
  destruct Hok as [Hi Hg].
  destruct (decide (blockers h = [])) as [Hb|Hb].
  - rewrite (mem_push_unblocked h cur to st rnd Hl Hb). cbn [fst].
    rewrite splice_truncates by lia.
    split; cbn [entries index location].
    + rewrite length_app, length_take. simpl. lia.
    + symmetry. apply array_get_appended. lia.
  - rewrite (mem_push_blocked h cur to st rnd Hl Hb). now split.
Qed.

Lemma cursor_ok_replace h to st rnd :
  cursor_ok h -> cursor_ok (replace to st rnd h).1.1.
Proof.
  intros Hok. destruct (cursor_ok_location h Hok) as (cur & Hl & _).
  destruct Hok as [Hi Hg].
  destruct (decide (blockers h = [])) as [Hb|Hb].
  - rewrite (mem_replace_unblocked h cur _ to st rnd Hl Hb
               (array_set_in_range _ _ _ Hi)). cbn [fst].
    split; cbn [entries index location].
    + rewrite length_insert. lia.
    + symmetry. now apply array_get_set.
  - rewrite (mem_replace_blocked h cur to st rnd Hl Hb). now split.
Qed.

Lemma cursor_ok_go h n : cursor_ok h -> cursor_ok (go n h).1.1.
Proof.
  intros [Hi Hg].
  destruct (decide (blockers h = [])) as [Hb|Hb].
  - rewrite (go_unblocked h n Hb). cbn [fst].
    split; cbn [entries index location]; [|reflexivity].
    apply clamp_range. lia.
  - rewrite (go_blocked h n Hb). now split.
Qed.

Lemma cursor_ok_after c h : cursor_ok h -> cursor_ok (after c h).
Proof.
  intros Hok. unfold after.
  destruct c as [to st rnd|to st rnd|n| | |fn|fn|fn|fn|[to st|to st|n] rnd];
    cbn [run retry]; unfold back, forward;
    auto using cursor_ok_push, cursor_ok_replace, cursor_ok_go;
    exact Hok.
Qed.

Lemma cursor_ok_run_all cs h : cursor_ok h -> cursor_ok (run_all cs h).
Proof.
  revert h; induction cs as [|c cs IH]; intros h Hok; [assumption|].
  apply IH, cursor_ok_after, Hok.
Qed.

Lemma cursor_ok_created initialEntries initialIndex (draws : nat -> string) :
  initialEntries <> Some [] ->
  cursor_ok (createMemoryHistory initialEntries initialIndex draws).1.
Proof.
  intros Hne. unfold createMemoryHistory. cbn [fst].
  set (ies := default [ToPath "/"] initialEntries).
  assert (Hlen : (1 <= length ies)%nat).
  { subst ies. destruct initialEntries as [[|e es]|]; simpl; [congruence|lia|lia]. }
  split; cbn [entries index location]; [|reflexivity].
  rewrite length_imap. apply clamp_range. lia.
Qed.

(** C10, as amended. For every memory history made by
    [createMemoryHistory] from initial entries that are not empty, with any
    initial index, and driven by any sequence of calls, the index stays
    within the entries and the location is the entry at the index. *)
Theorem memory_cursor_invariant
    (initialEntries : option (list To)) (initialIndex : option Z)
    (draws : nat -> string) (cs : list Call) :
  initialEntries <> Some [] ->
  cursor_ok (run_all cs (createMemoryHistory initialEntries initialIndex draws).1).
Proof.
  intros Hne. apply cursor_ok_run_all, cursor_ok_created, Hne.
Qed.

Lemma memory_cursor_invariant_witness :
  let draws := fun _ : nat => "0.4fzzzxjylrx" in
  let h := run_all [CGo 1; CPush (ToPath "/c") Undefined "0.9x8y7z6w5v"; CGo (-2)]
             (createMemoryHistory (Some [ToPath "/a"; ToPath "/b"]) (Some 7) draws).1 in
  Some [ToPath "/a"; ToPath "/b"] <> Some [] /\ cursor_ok h.
Proof.
  intros draws h. split; [discriminate|].
  apply (memory_cursor_invariant (Some [ToPath "/a"; ToPath "/b"]) (Some 7) draws).
  discriminate.
Defined.

(** C10 as stated fails: without entries the index is [-1] and the
    location is [undefined]. *)
Lemma memory_cursor_invariant_fails_empty :
  let h := (createMemoryHistory (Some []) (Some 0) (fun _ => "0.4fzzzxjylrx")).1 in
  index h = -1 /\ location h = None /\ ~ cursor_ok h.
Proof.
  intros h.
  assert (Hi : index h = -1) by reflexivity.
  split; [exact Hi|]. split; [reflexivity|].
  intros [[H0 _] _]. rewrite Hi in H0. lia.
Qed.

End Cursor.

Section Navigation.

Implicit Types (h : MemoryHistory) (to : To) (st : StateVal) (rnd : string).

(** The only exception a fan-out ends with is that of a handler of the
    registry that raises. *)
Lemma fan_outcome_cases (handlers : Events.t) :
  fan_outcome handlers = Returned tt \/
  exists fn, fan_outcome handlers = Threw (Raised fn) /\
             raises fn = true /\ fn ∈ handlers.
Proof.
  unfold fan_outcome. destruct (Events.call handlers).2 as [fn|] eqn:E;
    [right | now left].
  exists fn. split; [reflexivity | now apply call_raiser].
Qed.


(** C3. With no blocker registered and the cursor at index [i], [push]
    moves the index to [i + 1], keeps the entries up to [i], drops those
    after [i] and appends the new location as the last entry; [replace]
    overwrites the entry at [i] and keeps the index and the depth. *)
Theorem push_grows_replace_overwrites h to st rnd :
  cursor_ok h -> blockers h = [] ->
  exists cur,
    location h = Some cur /\
    let next := getNextLocation cur to st rnd in
    let i := Z.to_nat (index h) in
    let hp := (push to st rnd h).1.1 in
    let hr := (replace to st rnd h).1.1 in
    (index hp = index h + 1 /\
     entries hp = take (S i) (entries h) ++ [next] /\
     last (entries hp) = Some next /\
     Z.of_nat (length (entries hp)) = index h + 2 /\
     location hp = Some next /\ action hp = Push) /\
    (index hr = index h /\
     entries hr = <[i := next]> (entries h) /\
     length (entries hr) = length (entries h) /\
     entries hr !! i = Some next /\
     (forall j, j <> i -> entries hr !! j = entries h !! j) /\
     location hr = Some next /\ action hr = Replace).
Proof.
  intros Hok Hb. destruct (cursor_ok_location h Hok) as (cur & Hl & _).
  destruct Hok as [Hi _]. exists cur. split; [assumption|].
  intros next i hp hr. split.
  - subst hp. rewrite (mem_push_unblocked h cur to st rnd Hl Hb).
    cbn [fst entries index location action]. fold next.
    rewrite splice_truncates by lia.
    replace (Z.to_nat (index h + 1)) with (S i) by (subst i; lia).
    repeat split.
    + apply last_snoc.
    + rewrite length_app, length_take. change (length [next]) with 1%nat.
      subst i. lia.
  - subst hr.
    rewrite (mem_replace_unblocked h cur _ to st rnd Hl Hb
               (array_set_in_range _ _ _ Hi)).
    cbn [fst entries index location action]. fold next i.
    repeat split.
    + apply length_insert.
    + apply list_lookup_insert_eq. subst i. lia.
    + intros j Hj. now apply list_lookup_insert_ne.
Qed.

Lemma push_grows_replace_overwrites_witness :
  let a := mkLocation "/a" "" "" Undefined "k1" in
  let b := mkLocation "/b" "" "" Undefined "k2" in
  let c := mkLocation "/c" "" "" Undefined "k3" in
  let h := mkMemoryHistory [a; b; c] 1 Pop (Some b) [] [] in
  let next := mkLocation "/d" "" "" Null "9x8y7z6w" in
  entries (push (ToPath "/d") Null "0.9x8y7z6w5v" h).1.1 = [a; b; next] /\
  entries (replace (ToPath "/d") Null "0.9x8y7z6w5v" h).1.1 = [a; next; c].
Proof.
  intros a b c h next.
  assert (Hok : cursor_ok h) by (split; [cbn; lia | reflexivity]).
  destruct (push_grows_replace_overwrites h (ToPath "/d") Null "0.9x8y7z6w5v"
              Hok eq_refl) as (cur & Hcur & Hp & Hr).
  injection Hcur as <-.
  destruct Hp as (_ & Hp & _). destruct Hr as (_ & Hr & _).
  split; [exact Hp | exact Hr].
Defined.




(** C7, as amended. With the cursor past the first entry, or with a
    single entry, or with a blocker registered, [go (-1)] followed by
    [go 1] leaves the history at the location it had, key included. *)
Theorem back_then_forward_restores h :
  cursor_ok h ->
  0 < index h \/ length (entries h) = 1%nat \/ blockers h <> [] ->
  let h' := after (CGo 1) (after (CGo (-1)) h) in
  location h' = location h /\ index h' = index h /\ entries h' = entries h.
Proof.
  intros [Hi Hl] Hc h'. subst h'. unfold after. cbn [run].
  destruct (decide (blockers h = [])) as [Hb|Hb].
  - rewrite (go_unblocked h (-1) Hb). cbn [fst].
    rewrite go_unblocked by reflexivity.
    cbn [fst entries index location].
    assert (Hx : clamp (clamp (index h + -1) 0 (Z.of_nat (length (entries h)) - 1) + 1)
                       0 (Z.of_nat (length (entries h)) - 1) = index h).
    { unfold clamp. destruct Hc as [Hc|[Hc|Hc]]; [lia | lia | congruence]. }
    rewrite Hx. repeat split. now rewrite Hl.
  - rewrite (go_blocked h (-1) Hb). cbn [fst].
    rewrite (go_blocked h 1 Hb). now cbn.
Qed.

Lemma back_then_forward_restores_witness :
  let a := mkLocation "/a" "" "" Undefined "k1" in
  let b := mkLocation "/b" "" "" Undefined "k2" in
  let h := mkMemoryHistory [a; b] 1 Push (Some b) [] [] in
  location (after (CGo 1) (after (CGo (-1)) h)) = Some b.
Proof.
  intros a b h.
  assert (Hok : cursor_ok h) by (split; [cbn; lia | reflexivity]).
  destruct (back_then_forward_restores h Hok ltac:(left; cbn; lia)) as (Hl & _).
  exact Hl.
Defined.

(** C7 as stated fails at the first entry of a longer stack: [go (-1)]
    stays at index 0 and [go 1] moves to the second entry. *)
Lemma back_then_forward_moves_at_start :
  let h := (createMemoryHistory (Some [ToPath "/a"; ToPath "/b"]) (Some 0)
              (fun i => if Nat.eqb i 0 then "0.aaaaaaaaaa" else "0.bbbbbbbbbb")).1 in
  let h' := after (CGo 1) (after (CGo (-1)) h) in
  location h = Some (mkLocation "/a" "" "" Undefined "aaaaaaaa") /\
  location h' = Some (mkLocation "/b" "" "" Undefined "bbbbbbbb") /\
  location h' <> location h.
Proof.
  intros h h'. split; [reflexivity|]. split; [reflexivity|]. discriminate.
Qed.

(** With the cursor inside the entries no call ends on a read of
    [undefined] or on a write outside the entries: a call returns, or ends
    with the exception of a registered handler that raises. *)
Lemma call_outcome c h :
  cursor_ok h ->
  (run c h).2 = Returned tt \/
  exists fn, (run c h).2 = Threw (Raised fn) /\ raises fn = true /\
             (fn ∈ blockers h \/ fn ∈ listeners h).
Proof.
  intros Hok. destruct (cursor_ok_location h Hok) as (cur & Hl & _).
  destruct Hok as [Hi _].
  assert (Hfan : forall (hs : Events.t),
             (forall fn, fn ∈ hs -> fn ∈ blockers h \/ fn ∈ listeners h) ->
             fan_outcome hs = Returned tt \/
             exists fn, fan_outcome hs = Threw (Raised fn) /\ raises fn = true /\
                        (fn ∈ blockers h \/ fn ∈ listeners h)).
  { intros hs Hsub.
    destruct (fan_outcome_cases hs) as [->|(fn & -> & Hr & Hin)];
      [now left | right; eauto 6]. }
  assert (Hp : forall to st rnd,
             (push to st rnd h).2 = fan_outcome (listeners h) \/
             (push to st rnd h).2 = fan_outcome (blockers h)).
  { intros to st rnd. destruct (decide (blockers h = [])) as [Hb|Hb].
    - left. now rewrite (mem_push_unblocked h cur to st rnd Hl Hb).
    - right. now rewrite (mem_push_blocked h cur to st rnd Hl Hb). }
  assert (Hr : forall to st rnd,
             (replace to st rnd h).2 = fan_outcome (listeners h) \/
             (replace to st rnd h).2 = fan_outcome (blockers h)).
  { intros to st rnd. destruct (decide (blockers h = [])) as [Hb|Hb].
    - left. now rewrite (mem_replace_unblocked h cur _ to st rnd Hl Hb
                           (array_set_in_range _ _ _ Hi)).
    - right. now rewrite (mem_replace_blocked h cur to st rnd Hl Hb). }
  assert (Hg : forall n,
             (go n h).2 = fan_outcome (listeners h) \/
             (go n h).2 = fan_outcome (blockers h)).
  { intros n. destruct (decide (blockers h = [])) as [Hb|Hb].
    - left. now rewrite (go_unblocked h n Hb).
    - right. now rewrite (go_blocked h n Hb). }
  assert (Hl' : fan_outcome (listeners h) = Returned tt \/ _) by (apply Hfan; auto).
  assert (Hb' : fan_outcome (blockers h) = Returned tt \/ _) by (apply Hfan; auto).
  destruct c as [to st rnd|to st rnd|n| | |fn|fn|fn|fn|[to st|to st|n] rnd];
    cbn [run retry]; unfold back, forward;
    try (now left);
    first [ destruct (Hp to st rnd) as [->| ->]
          | destruct (Hr to st rnd) as [->| ->]
          | destruct (Hg n) as [->| ->]
          | destruct (Hg (-1)) as [->| ->]
          | destruct (Hg 1) as [->| ->] ];
    assumption.
Qed.

(** The scenario of the specification: from entries [/a], [/b] at index 0,
    [go 1], then a push of [/c], then [go (-2)]. *)
Example spec_scenario :
  let h0 := (createMemoryHistory (Some [ToPath "/a"; ToPath "/b"]) (Some 0)
               (fun _ => "0.4fzzzxjylrx")).1 in
  let h1 := after (CGo 1) h0 in
  let h2 := after (CPush (ToPath "/c") Undefined "0.9x8y7z6w5v") h1 in
  let h3 := after (CGo (-2)) h2 in
  (action h1 = Pop /\ pathname <$> location h1 = Some "/b" /\ index h1 = 1) /\
  (action h2 = Push /\ pathname <$> location h2 = Some "/c" /\ index h2 = 2 /\
   pathname <$> entries h2 = ["/a"; "/b"; "/c"]) /\
  (action h3 = Pop /\ pathname <$> location h3 = Some "/a" /\ index h3 = 0).
Proof. repeat split. Qed.

End Navigation.

Section Blocking.

Implicit Types (h : MemoryHistory) (to : To) (st : StateVal) (rnd : string).

Lemma fans_update_log pre (listeners : Events.t) u :
  blocker_calls pre = [] -> listener_calls pre = [] ->
  fans_update (pre ++ fan_log CallListener listeners u) listeners u.
Proof.
  intros Hb Hl. split; autorewrite with calls; rewrite ?Hb, ?Hl; reflexivity.
Qed.

Lemma fans_transition_log pre (blockers : Events.t) tx :
  blocker_calls pre = [] -> listener_calls pre = [] ->
  fans_transition (pre ++ fan_log CallBlocker blockers tx) blockers tx.
Proof.
  intros Hb Hl. split; autorewrite with calls; rewrite ?Hb, ?Hl; reflexivity.
Qed.

(** When no listener raises, one fan-out calls each listener once. *)
Lemma fans_update_all log (listeners : Events.t) u :
  fans_update log listeners u ->
  Forall (fun fn => raises fn = false) listeners ->
  listener_calls log = map (fun fn => (fn, u)) listeners.
Proof.
  intros [Hl _] Hq. now rewrite Hl, (call_no_raise _ Hq).
Qed.

Lemma mem_notices_quiet api to cur :
  blocker_calls (notices api to cur) = [] /\
  listener_calls (notices api to cur) = [].
Proof. unfold notices. now autorewrite with calls. Qed.

(** Without a blocker a call commits its update. *)
Lemma mem_unblocked_commits h cur to st rnd (n : Z) :
  cursor_ok h -> location h = Some cur -> blockers h = [] ->
  let next := getNextLocation cur to st rnd in
  let target := array_get (entries h)
                  (clamp (index h + n) 0 (Z.of_nat (length (entries h)) - 1)) in
  commits (push to st rnd h) h (mkUpdate Push (Some next)) /\
  commits (replace to st rnd h) h (mkUpdate Replace (Some next)) /\
  commits (go n h) h (mkUpdate Pop target).
Proof.
  intros [Hi _] Hl Hb next target.
  destruct (mem_notices_quiet "push" to cur) as [Hp1 Hp2].
  destruct (mem_notices_quiet "replace" to cur) as [Hr1 Hr2].
  unfold commits. split; [|split].
  - rewrite (mem_push_unblocked h cur to st rnd Hl Hb).
    repeat split; try reflexivity; now apply fans_update_log.
  - rewrite (mem_replace_unblocked h cur _ to st rnd Hl Hb
               (array_set_in_range _ _ _ Hi)).
    repeat split; try reflexivity; now apply fans_update_log.
  - rewrite (go_unblocked h n Hb).
    repeat split; try reflexivity; now apply (fans_update_log []).
Qed.

(** With a blocker a call is vetoed. *)
Lemma mem_blocked_vetoes h cur to st rnd (n : Z) :
  location h = Some cur -> blockers h <> [] ->
  let next := getNextLocation cur to st rnd in
  let target := array_get (entries h)
                  (clamp (index h + n) 0 (Z.of_nat (length (entries h)) - 1)) in
  vetoes (push to st rnd h) h (mkTransition Push (Some next) (RetryPush to st)) /\
  vetoes (replace to st rnd h) h
         (mkTransition Replace (Some next) (RetryReplace to st)) /\
  vetoes (go n h) h (mkTransition Pop target (RetryGo n)).
Proof.
  intros Hl Hb next target.
  destruct (mem_notices_quiet "push" to cur) as [Hp1 Hp2].
  destruct (mem_notices_quiet "replace" to cur) as [Hr1 Hr2].
  unfold vetoes. split; [|split].
  - rewrite (mem_push_blocked h cur to st rnd Hl Hb).
    split; [reflexivity | now apply fans_transition_log].
  - rewrite (mem_replace_blocked h cur to st rnd Hl Hb).
    split; [reflexivity | now apply fans_transition_log].
  - rewrite (go_blocked h n Hb).
    split; [reflexivity | now apply (fans_transition_log [])].
Qed.

End Blocking.

End MemoryFacts.

(** ** The URL-backed histories *)

Module UrlFacts.
Import Url.

Section Equations.

Context {W : Type} `{Platform W}.
Implicit Types (h : UrlHistory (W := W)) (b : Backend) (to : To)
               (st : StateVal) (rnd : string).

Local Ltac run_op :=
  unfold push, replace, go, handlePop, allowTx, applyTx, warn_relative;
  unfold bind, get, modify, throw, ret;
  repeat (rewrite ?fanout_run, ?warning_run; cbn -[getIndexAndLocation]).

Lemma warn_relative_run b api to next h :
  warn_relative b api to next h = (h, notices b api to next, Returned tt).
Proof. destruct b; [reflexivity | apply warning_run]. Qed.

Lemma allowTx_blocked a l r h :
  blockers h <> [] ->
  allowTx a l r h =
    (h, fan_log CallBlocker (blockers h) (mkTransition a (Some l) r),
     match fan_outcome (blockers h) with
     | Returned _ => Returned false
     | Threw e => Threw e
     end).
Proof.
  intros Hb. run_op. rewrite (length_nonzero _ Hb). run_op.
  unfold fan_outcome. destruct (Events.call (blockers h)).2; run_op;
    now rewrite ?app_nil_r.
Qed.

Lemma allowTx_unblocked a l r h :
  blockers h = [] -> allowTx a l r h = (h, [], Returned true).
Proof. intros Hb. run_op. now rewrite Hb, length_nil_eqb. Qed.

Lemma applyTx_run b a h :
  applyTx b a h =
    (applied b a (window h) h,
     fan_log CallListener (listeners h)
       (mkUpdate a (Some (getIndexAndLocation b (window h)).2)),
     fan_outcome (listeners h)).
Proof.
  run_op. unfold applied, set_cursor.
  destruct (getIndexAndLocation b (window h)) as [i l]. run_op.
  reflexivity.
Qed.

Lemma url_push_blocked b h to st rnd :
  blockers h <> [] ->
  let next := getNextLocation (location h) to st rnd in
  push b to st rnd h =
    (h,
     notices b "push" to next ++
       fan_log CallBlocker (blockers h)
               (mkTransition Push (Some next) (RetryPush to st)),
     fan_outcome (blockers h)).
Proof.
  intros Hb next. unfold push, bind, get. rewrite warn_relative_run.
  rewrite (allowTx_blocked _ _ _ _ Hb). fold next.
  destruct (fan_outcome (blockers h)) as [[]|e]; cbn; now rewrite ?app_nil_r.
Qed.

Lemma url_replace_blocked b h to st rnd :
  blockers h <> [] ->
  let next := getNextLocation (location h) to st rnd in
  replace b to st rnd h =
    (h,
     notices b "replace" to next ++
       fan_log CallBlocker (blockers h)
               (mkTransition Replace (Some next) (RetryReplace to st)),
     fan_outcome (blockers h)).
Proof.
  intros Hb next. unfold replace, bind, get. rewrite warn_relative_run.
  rewrite (allowTx_blocked _ _ _ _ Hb). fold next.
  destruct (fan_outcome (blockers h)) as [[]|e]; cbn; now rewrite ?app_nil_r.
Qed.

Lemma url_push_unblocked b h to st rnd :
  blockers h = [] ->
  let next := getNextLocation (location h) to st rnd in
  let h' := applied b Push (pushed b next h) h in
  push b to st rnd h =
    (h',
     notices b "push" to next ++
       fan_log CallListener (listeners h) (mkUpdate Push (Some (location h'))),
     fan_outcome (listeners h)).
Proof.
  intros Hb next h'. unfold push, bind, get. rewrite warn_relative_run.
  rewrite (allowTx_unblocked _ _ _ _ Hb). fold next.
  unfold modify. rewrite applyTx_run. subst h'. unfold pushed, applied.
  destruct (getHistoryStateAndUrl b (window h) next _) as [hs url].
  destruct (pushState hs url (window h)); cbn; reflexivity.
Qed.

Lemma url_replace_unblocked b h to st rnd :
  blockers h = [] ->
  let next := getNextLocation (location h) to st rnd in
  let h' := applied b Replace (replaced b next h) h in
  replace b to st rnd h =
    (h',
     notices b "replace" to next ++
       fan_log CallListener (listeners h) (mkUpdate Replace (Some (location h'))),
     fan_outcome (listeners h)).
Proof.
  intros Hb next h'. unfold replace, bind, get. rewrite warn_relative_run.
  rewrite (allowTx_unblocked _ _ _ _ Hb). fold next.
  unfold modify. rewrite applyTx_run. subst h'. unfold replaced, applied.
  destruct (getHistoryStateAndUrl b (window h) next _) as [hs url].
  cbn; reflexivity.
Qed.

(** The four ways a [popstate] event is handled. *)
Lemma handlePop_held b h tx :
  blockedPopTx h = Some tx ->
  handlePop b h =
    (match fan_outcome (blockers h) with
     | Returned _ => set_blockedPopTx None h
     | Threw _ => h
     end,
     fan_log CallBlocker (blockers h) tx,
     fan_outcome (blockers h)).
Proof.
  intros Ht. run_op. rewrite Ht. run_op.
  destruct (fan_outcome (blockers h)) as [[]|e]; cbn; now rewrite ?app_nil_r.
Qed.

Lemma handlePop_unblocked b h :
  blockedPopTx h = None -> blockers h = [] ->
  handlePop b h =
    (applied b Pop (window h) h,
     fan_log CallListener (listeners h)
       (mkUpdate Pop (Some (getIndexAndLocation b (window h)).2)),
     fan_outcome (listeners h)).
Proof.
  intros Ht Hb. unfold handlePop, bind, get. rewrite Ht.
  destruct (getIndexAndLocation b (window h)) as [i l] eqn:E.
  rewrite Hb, length_nil_eqb. cbn [negb].
  rewrite applyTx_run, E. reflexivity.
Qed.

Lemma handlePop_reverts b h i j l :
  blockedPopTx h = None -> blockers h <> [] ->
  index h = Some (Int i) ->
  getIndexAndLocation b (window h) = (Some (Int j), l) ->
  i <> j ->
  handlePop b h =
    (mkUrlHistory (history_go (i - j) (window h)) (index h) (action h)
                  (location h) (blockers h) (listeners h)
                  (Some (mkTransition Pop (Some l) (RetryGo ((i - j) * -1)))),
     [], Returned tt).
Proof.
  intros Ht Hb Hi Hn Hij. unfold handlePop, bind, get. rewrite Ht, Hn.
  rewrite (length_nonzero _ Hb). cbn [negb]. rewrite Hi. cbn [num_sub].
  destruct (i - j =? 0) eqn:E; [lia|]. cbn [negb].
  unfold go, modify, set_blockedPopTx, set_window. cbn.
  rewrite ?Hi. reflexivity.
Qed.

(** With a blocker registered a [popstate] event never moves the cursor
    of the engine and never reaches a listener. *)
Lemma handlePop_blocked_cursor b h :
  blockers h <> [] ->
  let res := handlePop b h in
  index res.1.1 = index h /\ action res.1.1 = action h /\
  location res.1.1 = location h /\ listener_calls res.1.2 = [].
Proof.
  intros Hb res. subst res.
  destruct (blockedPopTx h) as [tx|] eqn:Ht.
  - rewrite (handlePop_held b h tx Ht). cbn [fst snd].
    rewrite listener_calls_fan_blockers.
    destruct (fan_outcome (blockers h)); now cbn.
  - unfold handlePop, bind, get. rewrite Ht.
    destruct (getIndexAndLocation b (window h)) as [nextIndex l].
    rewrite (length_nonzero _ Hb). cbn [negb].
    destruct nextIndex as [nextIndex|]; [|now cbn].
    destruct (num_sub (index h) (Some nextIndex)) as [|n]; [now cbn|].
    destruct (n =? 0); now cbn.
Qed.

End Equations.

Section BlockedPop.

Context {W : Type} `{Platform W}.
Implicit Types (h : UrlHistory (W := W)) (b : Backend).

Lemma retry_go_run b (n : Z) rnd h :
  retry b (RetryGo n) rnd h = (set_window (history_go n (window h)) h, [], Returned tt).
Proof. reflexivity. Qed.

(** C4, as amended. With a blocker registered, a pop detected on an entry
    whose index [j] is present and differs from the index [i] of the
    engine makes the engine ask the platform for the counter-move by
    [n = i - j] and hold a transition whose [retry] moves by [- n]; no
    blocker and no listener is called then.  The next pop detected while
    the transition is held calls the blockers with that transition, in
    the order of their registration and up to the first that raises, calls
    no listener and leaves the cursor where it is.  When no blocker raises,
    every blocker is called, once for each registration, and the hold is
    cleared; when a blocker raises, its exception leaves the handler of the
    pop, the blockers after it are not called and the transition stays
    held.  The blockers are handlers that only return or raise: they make
    no call on the history while they are called. *)
Theorem blocked_pop_reverted_then_announced b h (i j : Z) (l : Location) :
  blockers h <> [] -> blockedPopTx h = None ->
  index h = Some (Int i) ->
  getIndexAndLocation b (window h) = (Some (Int j), l) ->
  i <> j ->
  let n := i - j in
  let tx := mkTransition Pop (Some l) (RetryGo (- n)) in
  let first := handlePop b h in
  (first.1.2 = [] /\ first.2 = Returned tt /\
   window first.1.1 = history_go n (window h) /\
   blockedPopTx first.1.1 = Some tx /\
   index first.1.1 = index h /\ action first.1.1 = action h /\
   location first.1.1 = location h /\
   blockers first.1.1 = blockers h /\ listeners first.1.1 = listeners h) /\
  (forall rnd h',
     retry b (tx_retry tx) rnd h'
       = (set_window (history_go (j - i) (window h')) h', [], Returned tt)) /\
  (forall h1, blockedPopTx h1 = Some tx ->
     let second := handlePop b h1 in
     fans_transition second.1.2 (blockers h1) tx /\
     second.2 = fan_outcome (blockers h1) /\
     window second.1.1 = window h1 /\
     index second.1.1 = index h1 /\ action second.1.1 = action h1 /\
     location second.1.1 = location h1 /\
     blockers second.1.1 = blockers h1 /\ listeners second.1.1 = listeners h1 /\
     (second.2 = Returned tt -> blockedPopTx second.1.1 = None) /\
     (Forall (fun fn => raises fn = false) (blockers h1) ->
        blocker_calls second.1.2 = map (fun fn => (fn, tx)) (blockers h1) /\
        second.2 = Returned tt /\ blockedPopTx second.1.1 = None) /\
     (forall e, second.2 = Threw e ->
        exists fn before after,
          e = Raised fn /\
          blockers h1 = before ++ fn :: after /\
          Forall (fun g => raises g = false) before /\ raises fn = true /\
          blocker_calls second.1.2 = map (fun g => (g, tx)) (before ++ [fn]) /\
          blockedPopTx second.1.1 = Some tx)).
Proof.
  intros Hb Ht Hi Hn Hij n tx first.
  assert (Htx : mkTransition Pop (Some l) (RetryGo ((i - j) * -1)) = tx).
  { subst tx n. do 2 f_equal. lia. }
  split; [|split].
  - subst first. rewrite (handlePop_reverts b h i j l Ht Hb Hi Hn Hij).
    cbn [fst snd window blockedPopTx index action location blockers listeners].
    rewrite Htx. repeat split; reflexivity.
  - intros rnd h'. subst tx. cbn [tx_retry]. rewrite retry_go_run.
    subst n. now replace (- (i - j)) with (j - i) by lia.
  - intros h1 Hh second. subst second.
    rewrite (handlePop_held b h1 tx Hh). cbn [fst snd].
    split; [|split; [reflexivity|]].
    { split; [apply blocker_calls_fan_blockers | apply listener_calls_fan_blockers]. }
    assert (Hcalls : blocker_calls (fan_log CallBlocker (blockers h1) tx)
                     = map (fun fn => (fn, tx)) (Events.call (blockers h1)).1)
      by apply blocker_calls_fan_blockers.
    rewrite Hcalls. unfold fan_outcome.
    destruct (Events.call (blockers h1)).2 as [fn|] eqn:E.
    + do 6 (split; [reflexivity|]). split; [discriminate|]. split.
      * intros Hq. rewrite (call_no_raise _ Hq) in E. discriminate E.
      * intros e [= <-].
        destruct (call_stops_at_raiser _ _ E) as (before & after & Hbl & Hq & Hr & Hinv).
        exists fn, before, after. rewrite Hinv. now repeat split.
    + do 6 (split; [reflexivity|]). split; [reflexivity|]. split.
      * intros Hq. rewrite (call_no_raise _ Hq). now repeat split.
      * intros e [=].
Qed.

End BlockedPop.

Section Scenario.

Import Sim.

Example at_b_cursor :
  index at_b = Some (Int 1) /\ pathname (location at_b) = "/b" /\
  Sim.cursor (window at_b) = 1%nat /\ blockers at_b = [blk].
Proof. repeat split. Qed.

Lemma blocked_pop_reverted_then_announced_witness :
  let h := (Sim.user_go (-1) at_b).1.1 in
  let moved := set_window (default (window h) (fst <$> Sim.traverse (window h))) h in
  blockers moved <> [] /\ blockedPopTx moved = None /\
  index moved = Some (Int 1) /\
  getIndexAndLocation Browser (window moved)
    = (Some (Int 0), mkLocation "/" "" "" Null "default") /\
  (handlePop Browser moved).1.2 = [] /\
  blockedPopTx (handlePop Browser moved).1.1 = Some held.
Proof.
  intros h moved.
  assert (Hb : blockers moved <> []) by discriminate.
  assert (Ht : blockedPopTx moved = None) by reflexivity.
  assert (Hi : index moved = Some (Int 1)) by reflexivity.
  assert (Hn : getIndexAndLocation Browser (window moved)
               = (Some (Int 0), mkLocation "/" "" "" Null "default"))
    by reflexivity.
  destruct (blocked_pop_reverted_then_announced Browser moved 1 0 _
              Hb Ht Hi Hn ltac:(lia)) as ((Hlog & _ & _ & Hheld & _) & _).
  repeat split; assumption.
Defined.

(** The hash history reads its location from the fragment and writes
    hrefs that begin with [#]. *)
Example hash_history_reads_fragment :
  let w := Sim.mkWindow [Sim.mkEntry None "/index.html" "" "#/a?x=1"] 0 [] false in
  let h := createHashHistory w in
  location h = mkLocation "/a" "?x=1" "" Null "default" /\
  index h = Some (Int 0) /\
  createHref Hash w (ToPieces (mkPieces (Some "/b") None (Some "#top"))) = "#/b#top".
Proof. repeat split. Qed.

(** C4 as stated fails: at the first detection the blocker is registered
    and is not called; the transition is only held. *)
Lemma first_detection_calls_no_blocker :
  let h := (Sim.user_go (-1) at_b).1.1 in
  let res := Sim.deliver Browser h in
  blockers h = [blk] /\
  blockedPopTx res.1.1 = Some held /\
  Sim.pending (window res.1.1) = [1] /\
  blocker_calls res.1.2 = [] /\
  blocker_calls res.1.2 <> map (fun fn => (fn, held)) (blockers h).
Proof. repeat split. discriminate. Qed.

(** A blocker that raises while the held transition is announced: the
    blocker after it is not called and the transition stays held. *)
Example raising_blocker_keeps_hold :
  let raising := mkHandler 9 true in
  let h1 := set_blockedPopTx (Some held) (set_blockers [raising; blk] at_b) in
  handlePop Browser h1 = (h1, [CallBlocker raising held], Threw (Raised raising)) /\
  blockedPopTx (handlePop Browser h1).1.1 = Some held.
Proof. split; reflexivity. Qed.

(** The round trip as a whole: the counter-move brings the platform back
    to the entry of the engine, and its [popstate] is the one that calls
    the blocker, once; no listener is called and the cursor of the engine
    has not moved. *)
Example blocked_pop_round_trip :
  let h := (Sim.user_go (-1) at_b).1.1 in
  let first := Sim.deliver Browser h in
  let second := Sim.deliver Browser first.1.1 in
  first.1.2 = [] /\
  second.1.2 = [CallBlocker blk held] /\
  Sim.cursor (window second.1.1) = 1%nat /\
  blockedPopTx second.1.1 = None /\
  index second.1.1 = index at_b /\ location second.1.1 = location at_b.
Proof. repeat split. Qed.

End Scenario.

Section Blocking.

Context {W : Type} `{Platform W}.
Implicit Types (h : UrlHistory (W := W)) (b : Backend) (to : To)
               (st : StateVal) (rnd : string).

Lemma url_notices_quiet b api to next :
  blocker_calls (notices b api to next) = [] /\
  listener_calls (notices b api to next) = [].
Proof. destruct b; cbn [notices]; now autorewrite with calls. Qed.

Lemma url_unblocked_commits b h to st rnd :
  blockers h = [] ->
  let next := getNextLocation (location h) to st rnd in
  commits b (push b to st rnd h) h Push (pushed b next h) /\
  commits b (replace b to st rnd h) h Replace (replaced b next h) /\
  (blockedPopTx h = None -> commits b (handlePop b h) h Pop (window h)).
Proof.
  intros Hb next.
  destruct (url_notices_quiet b "push" to next) as [Hp1 Hp2].
  destruct (url_notices_quiet b "replace" to next) as [Hr1 Hr2].
  split; [|split].
  - rewrite (url_push_unblocked b h to st rnd Hb). split; [reflexivity|].
    cbn [fst snd]. now apply MemoryFacts.fans_update_log.
  - rewrite (url_replace_unblocked b h to st rnd Hb). split; [reflexivity|].
    cbn [fst snd]. now apply MemoryFacts.fans_update_log.
  - intros Ht. rewrite (handlePop_unblocked b h Ht Hb). split; [reflexivity|].
    cbn [fst snd]. now apply (MemoryFacts.fans_update_log []).
Qed.

Lemma url_blocked_vetoes b h to st rnd :
  blockers h <> [] ->
  let next := getNextLocation (location h) to st rnd in
  vetoes (push b to st rnd h) h
         (mkTransition Push (Some next) (RetryPush to st)) /\
  vetoes (replace b to st rnd h) h
         (mkTransition Replace (Some next) (RetryReplace to st)) /\
  (index (handlePop b h).1.1 = index h /\
   action (handlePop b h).1.1 = action h /\
   location (handlePop b h).1.1 = location h /\
   listener_calls (handlePop b h).1.2 = []).
Proof.
  intros Hb next.
  destruct (url_notices_quiet b "push" to next) as [Hp1 Hp2].
  destruct (url_notices_quiet b "replace" to next) as [Hr1 Hr2].
  split; [|split].
  - rewrite (url_push_blocked b h to st rnd Hb). split; [reflexivity|].
    cbn [fst snd]. now apply MemoryFacts.fans_transition_log.
  - rewrite (url_replace_blocked b h to st rnd Hb). split; [reflexivity|].
    cbn [fst snd]. now apply MemoryFacts.fans_transition_log.
  - apply (handlePop_blocked_cursor b h Hb).
Qed.

End Blocking.

End UrlFacts.

(** ** The blocking protocol *)

Section BlockingProtocol.

Context {W : Type} `{Platform W}.

(** C2, as amended. On every history: with no blocker registered a push,
    a replace or a pop is committed, the cursor holding the update and the
    listeners getting one fan-out of it; with a blocker registered the call
    is vetoed, the blockers getting the transition while the cursor stays
    and no listener is called.  [retry] makes the vetoed call again: it is
    committed, as one update, when no blocker is registered any more, and
    it is vetoed again while one is. *)
Theorem blocking_protocol
    (m : Memory.MemoryHistory) (u : Url.UrlHistory (W := W)) (b : Backend)
    (to : To) (st : StateVal) (n : Z) :
  Memory.cursor_ok m ->
  exists cur,
    Memory.location m = Some cur /\
    let target :=
      array_get (Memory.entries m)
        (clamp (Memory.index m + n) 0
               (Z.of_nat (length (Memory.entries m)) - 1)) in
    (Memory.blockers m = [] -> forall rnd,
       let next := getNextLocation cur to st rnd in
       Memory.commits (Memory.push to st rnd m) m (mkUpdate Push (Some next)) /\
       Memory.commits (Memory.replace to st rnd m) m (mkUpdate Replace (Some next)) /\
       Memory.commits (Memory.go n m) m (mkUpdate Pop target) /\
       Memory.commits (Memory.retry (RetryPush to st) rnd m) m
                      (mkUpdate Push (Some next)) /\
       Memory.commits (Memory.retry (RetryReplace to st) rnd m) m
                      (mkUpdate Replace (Some next)) /\
       Memory.commits (Memory.retry (RetryGo n) rnd m) m (mkUpdate Pop target)) /\
    (Memory.blockers m <> [] -> forall rnd,
       let next := getNextLocation cur to st rnd in
       let tp := mkTransition Push (Some next) (RetryPush to st) in
       let tr := mkTransition Replace (Some next) (RetryReplace to st) in
       let tg := mkTransition Pop target (RetryGo n) in
       Memory.vetoes (Memory.push to st rnd m) m tp /\
       Memory.vetoes (Memory.replace to st rnd m) m tr /\
       Memory.vetoes (Memory.go n m) m tg /\
       Memory.vetoes (Memory.retry (tx_retry tp) rnd m) m tp /\
       Memory.vetoes (Memory.retry (tx_retry tr) rnd m) m tr /\
       Memory.vetoes (Memory.retry (tx_retry tg) rnd m) m tg) /\
    (Url.blockers u = [] -> forall rnd,
       let next := getNextLocation (Url.location u) to st rnd in
       Url.commits b (Url.push b to st rnd u) u Push (Url.pushed b next u) /\
       Url.commits b (Url.replace b to st rnd u) u Replace (Url.replaced b next u) /\
       (Url.blockedPopTx u = None ->
          Url.commits b (Url.handlePop b u) u Pop (Url.window u)) /\
       Url.commits b (Url.retry b (RetryPush to st) rnd u) u Push
                   (Url.pushed b next u) /\
       Url.commits b (Url.retry b (RetryReplace to st) rnd u) u Replace
                   (Url.replaced b next u)) /\
    (Url.blockers u <> [] -> forall rnd,
       let next := getNextLocation (Url.location u) to st rnd in
       let tp := mkTransition Push (Some next) (RetryPush to st) in
       let tr := mkTransition Replace (Some next) (RetryReplace to st) in
       Url.vetoes (Url.push b to st rnd u) u tp /\
       Url.vetoes (Url.replace b to st rnd u) u tr /\
       (Url.index (Url.handlePop b u).1.1 = Url.index u /\
        Url.action (Url.handlePop b u).1.1 = Url.action u /\
        Url.location (Url.handlePop b u).1.1 = Url.location u /\
        listener_calls (Url.handlePop b u).1.2 = []) /\
       Url.vetoes (Url.retry b (tx_retry tp) rnd u) u tp /\
       Url.vetoes (Url.retry b (tx_retry tr) rnd u) u tr).
Proof.
  intros Hok.
  destruct (MemoryFacts.cursor_ok_location m Hok) as (cur & Hl & _).
  exists cur. split; [exact Hl|]. intros target.
  split; [|split; [|split]].
  - intros Hb rnd next.
    destruct (MemoryFacts.mem_unblocked_commits m cur to st rnd n Hok Hl Hb)
      as (Hp & Hr & Hg).
    exact (conj Hp (conj Hr (conj Hg (conj Hp (conj Hr Hg))))).
  - intros Hb rnd next tp tr tg.
    destruct (MemoryFacts.mem_blocked_vetoes m cur to st rnd n Hl Hb)
      as (Hp & Hr & Hg).
    exact (conj Hp (conj Hr (conj Hg (conj Hp (conj Hr Hg))))).
  - intros Hb rnd next.
    destruct (UrlFacts.url_unblocked_commits b u to st rnd Hb) as (Hp & Hr & Hg).
    exact (conj Hp (conj Hr (conj Hg (conj Hp Hr)))).
  - intros Hb rnd next tp tr.
    destruct (UrlFacts.url_blocked_vetoes b u to st rnd Hb) as (Hp & Hr & Hg).
    exact (conj Hp (conj Hr (conj Hg (conj Hp Hr)))).
Qed.

End BlockingProtocol.

Section BlockingExamples.

Import Memory.

Example guarded_cursor :
  entries guarded = [mkLocation "/a" "" "" Undefined "4fzzzxjy"] /\
  index guarded = 0 /\ blockers guarded = [blocker1] /\
  listeners guarded = [listener1].
Proof. repeat split. Qed.

Lemma blocking_protocol_witness :
  let m := guarded in
  let m' := (unblock blocker1 m).1.1 in
  let a := mkLocation "/a" "" "" Undefined "4fzzzxjy" in
  let next := getNextLocation a (ToPath "/x") Null "0.9x8y7z6w5v" in
  let next' := getNextLocation a (ToPath "/x") Null "0.5a5a5a5a5a" in
  let tx := mkTransition Push (Some next) (RetryPush (ToPath "/x") Null) in
  cursor_ok m /\
  vetoes (push (ToPath "/x") Null "0.9x8y7z6w5v" m) m tx /\
  commits (retry (tx_retry tx) "0.5a5a5a5a5a" m') m' (mkUpdate Push (Some next')).
Proof.
  intros m m' a next next' tx.
  assert (Hok : cursor_ok m)
    by (split; [vm_compute; split; discriminate | reflexivity]).
  assert (Hok' : cursor_ok m')
    by (split; [vm_compute; split; discriminate | reflexivity]).
  split; [exact Hok|].
  destruct (blocking_protocol m Sim.at_b Browser (ToPath "/x") Null 0 Hok)
    as (cur & Hcur & _ & Hv & _).
  destruct (blocking_protocol m' Sim.at_b Browser (ToPath "/x") Null 0 Hok')
    as (cur' & Hcur' & Hc & _).
  injection Hcur as <-. injection Hcur' as <-.
  split.
  - exact (proj1 (Hv ltac:(discriminate) "0.9x8y7z6w5v")).
  - exact (proj1 (proj2 (proj2 (proj2 (Hc eq_refl "0.5a5a5a5a5a"))))).
Defined.

(** C2 as stated fails in its last part: with the blocker still
    registered, the [retry] of the vetoed push is vetoed in turn; the
    blocker is called again, no listener is, and the cursor has not moved. *)
Lemma retry_with_blocker_applies_no_update :
  let m := guarded in
  let a := mkLocation "/a" "" "" Undefined "4fzzzxjy" in
  let next := getNextLocation a (ToPath "/x") Null "0.9x8y7z6w5v" in
  let next' := getNextLocation a (ToPath "/x") Null "0.5a5a5a5a5a" in
  let tx := mkTransition Push (Some next) (RetryPush (ToPath "/x") Null) in
  let tx' := mkTransition Push (Some next') (RetryPush (ToPath "/x") Null) in
  let vetoed := push (ToPath "/x") Null "0.9x8y7z6w5v" m in
  let retried := retry (tx_retry tx) "0.5a5a5a5a5a" vetoed.1.1 in
  blocker_calls vetoed.1.2 = [(blocker1, tx)] /\
  retried.1.1 = m /\
  listener_calls retried.1.2 = [] /\
  blocker_calls retried.1.2 = [(blocker1, tx')] /\
  ~ commits retried m (mkUpdate Push (Some next')).
Proof.
  intros m a next next' tx tx' vetoed retried.
  repeat split. intros (Ha & _). discriminate Ha.
Qed.

End BlockingExamples.

(* ===================================================================== *)
(** * Further properties of the code *)
(* ===================================================================== *)

(** ** Path codec: from pieces to a path and back *)

Section PiecesRoundTrip.

Lemma includes_append c (s1 s2 : string) :
  JS.includes c (s1 +:+ s2)%string = JS.includes c s1 || JS.includes c s2.
Proof.
  induction s1 as [|a s1 IH]; [reflexivity|].
  change (JS.includes c (String a (s1 +:+ s2)%string)
          = JS.includes c (String a s1) || JS.includes c s2).
  cbn [JS.includes]. now rewrite IH, orb_assoc.
Qed.

Lemma indexOf_from_app_hit c (s1 t : string) i :
  JS.includes c s1 = false ->
  JS.indexOf_from c (s1 +:+ String c t)%string i = i + JS.size s1.
Proof.
  revert i; induction s1 as [|a s1 IH]; intros i Hn.
  - change (JS.indexOf_from c (String c t) i = i + JS.size "").
    cbn [JS.indexOf_from]. rewrite Ascii.eqb_refl. unfold JS.size. simpl. lia.
  - change (JS.indexOf_from c (String a (s1 +:+ String c t)%string) i
            = i + JS.size (String a s1)).
    cbn [JS.includes] in Hn. apply orb_false_iff in Hn as [Ha Hn].
    cbn [JS.indexOf_from]. rewrite Ha, (IH (i + 1) Hn).
    unfold JS.size. cbn [String.length]. lia.
Qed.

Lemma take_app_exact (s1 s2 : string) :
  JS.take (String.length s1) (s1 +:+ s2)%string = s1.
Proof.
  induction s1 as [|a s1 IH]; [now destruct s2|].
  change (String a (JS.take (String.length s1) (s1 +:+ s2)%string) = String a s1).
  now rewrite IH.
Qed.

Lemma drop_app_exact (s1 s2 : string) :
  JS.drop (String.length s1) (s1 +:+ s2)%string = s2.
Proof.
  induction s1 as [|a s1 IH]; [reflexivity|]. exact IH.
Qed.

Lemma size_append (s1 s2 : string) :
  JS.size (s1 +:+ s2)%string = JS.size s1 + JS.size s2.
Proof.
  unfold JS.size. induction s1 as [|a s1 IH].
  { change (Z.of_nat (String.length s2) = 0 + Z.of_nat (String.length s2)). lia. }
  change (Z.of_nat (S (String.length (s1 +:+ s2)%string))
          = Z.of_nat (S (String.length s1)) + Z.of_nat (String.length s2)).
  lia.
Qed.

(** The cut of [parsePath] at [c], on a string whose first [c] opens its
    second part, and on a string without [c]. *)
Lemma cut_app c (s1 t : string) :
  JS.includes c s1 = false ->
  let s := (s1 +:+ String c t)%string in
  (if 0 <=? JS.indexOf c s
   then (Some (JS.substr_from s (JS.indexOf c s)), JS.substr s 0 (JS.indexOf c s))
   else (None, s)) = (Some (String c t), s1).
Proof.
  intros Hn s. unfold JS.indexOf. subst s.
  rewrite (indexOf_from_app_hit c s1 t 0 Hn), Z.add_0_l.
  assert (Hs : 0 <= JS.size s1 <= JS.size (s1 +:+ String c t)%string).
  { rewrite size_append. unfold JS.size. lia. }
  destruct (0 <=? JS.size s1) eqn:E; [|apply Z.leb_gt in E; lia].
  rewrite substr_prefix, substr_suffix by exact Hs.
  unfold JS.size. rewrite Nat2Z.id.
  now rewrite take_app_exact, drop_app_exact.
Qed.

Lemma cut_none c (s : string) :
  JS.includes c s = false ->
  (if 0 <=? JS.indexOf c s
   then (Some (JS.substr_from s (JS.indexOf c s)), JS.substr s 0 (JS.indexOf c s))
   else (None, s)) = (@None string, s).
Proof.
  intros Hn. pose proof (indexOf_from_absent c s 0 ltac:(lia)) as Ha.
  fold (JS.indexOf c s) in Ha. rewrite Hn in Ha. simpl in Ha.
  apply Z.ltb_lt in Ha.
  destruct (0 <=? JS.indexOf c s) eqn:E; [apply Z.leb_le in E; lia | reflexivity].
Qed.

Lemma starts_with_inv c (s : string) :
  JS.starts_with c s = true -> exists t, s = String c t.
Proof.
  destruct s as [|a t]; [discriminate|]. simpl. intros Ha.
  apply Ascii.eqb_eq in Ha. subst a. now exists t.
Qed.

(** [parsePath] on a pathname, a search and a hash put together, the
    search and the hash being empty or well formed. *)
Lemma parsePath_concat (x q h : string) :
  wf_pathname x = true ->
  JS.truthy q = false \/ wf_search q = true ->
  JS.truthy h = false \/ wf_hash h = true ->
  parsePath (x +:+ q +:+ h)%string
  = mkPieces (Some x) (if JS.truthy q then Some q else None)
             (if JS.truthy h then Some h else None).
Proof.
  intros Hx Hq Hh. unfold wf_pathname in Hx.
  apply andb_prop in Hx as [Hx Hx3]. apply andb_prop in Hx as [Hx1 Hx2].
  apply negb_true_iff in Hx2, Hx3.
  assert (Hqh : JS.includes "#" q = false).
  { destruct Hq as [Hq|Hq]; [now destruct q|].
    unfold wf_search in Hq. apply andb_prop in Hq as [_ Hq].
    now apply negb_true_iff in Hq. }
  destruct x as [|a x']; [discriminate|].
  unfold parsePath, Path.
  change (JS.truthy (String a x' +:+ q +:+ h)%string) with true. cbv iota.
  (* the cut at the hash *)
  assert (Hcut1 :
    (let s := (String a x' +:+ q +:+ h)%string in
     if 0 <=? JS.indexOf "#" s
     then (Some (JS.substr_from s (JS.indexOf "#" s)), JS.substr s 0 (JS.indexOf "#" s))
     else (None, s))
    = (if JS.truthy h then Some h else None, (String a x' +:+ q)%string)).
  { destruct Hh as [Hh|Hh].
    - destruct h; [|discriminate]. cbn [JS.truthy].
      rewrite append_empty_r. apply cut_none.
      rewrite includes_append, Hx2, Hqh. reflexivity.
    - unfold wf_hash in Hh. destruct (starts_with_inv _ _ Hh) as [t ->].
      cbn [JS.truthy]. rewrite <- append_assoc. apply cut_app.
      rewrite includes_append, Hx2, Hqh. reflexivity. }
  cbv zeta in Hcut1. rewrite Hcut1. cbv iota beta.
  (* the cut at the search *)
  assert (Hcut2 :
    (let s := (String a x' +:+ q)%string in
     if 0 <=? JS.indexOf "?" s
     then (Some (JS.substr_from s (JS.indexOf "?" s)), JS.substr s 0 (JS.indexOf "?" s))
     else (None, s))
    = (if JS.truthy q then Some q else None, String a x')).
  { destruct Hq as [Hq|Hq].
    - destruct q; [|discriminate]. cbn [JS.truthy].
      rewrite append_empty_r. now apply cut_none.
    - unfold wf_search in Hq. apply andb_prop in Hq as [Hq _].
      destruct (starts_with_inv _ _ Hq) as [t ->].
      cbn [JS.truthy]. now apply cut_app. }
  cbv zeta in Hcut2. rewrite Hcut2. reflexivity.
Qed.

(** X1. From pieces to a path and back: on pieces that hold a pathname
    (not empty, without [?] and [#]), a search that is absent or begins with
    [?] and holds no [#], and a hash that is absent or begins with [#],
    [parsePath (createPath pieces)] is the pieces. *)
Theorem parsePath_createPath (p : PathPieces) :
  wf_pieces p = true -> parsePath (createPath p) = p.
Proof.
  destruct p as [[x|] q h]; unfold wf_pieces; cbn [pp_pathname pp_search pp_hash];
    [|discriminate].
  intros Hw. apply andb_prop in Hw as [Hw Hh]. apply andb_prop in Hw as [Hx Hq].
  unfold createPath. cbn [pp_pathname pp_search pp_hash default from_option id].
  rewrite (parsePath_concat x (default "" q) (default "" h) Hx).
  - f_equal.
    + destruct q as [q|]; [|reflexivity]. cbn.
      unfold wf_search in Hq. apply andb_prop in Hq as [Hq _]. now destruct q.
    + destruct h as [h|]; [|reflexivity]. cbn.
      unfold wf_hash in Hh. now destruct h.
  - destruct q as [q|]; [now right | now left].
  - destruct h as [h|]; [now right | now left].
Qed.

Lemma parsePath_createPath_witness :
  let p := mkPieces (Some "/a/b") (Some "?x=1") (Some "#top") in
  wf_pieces p = true /\ parsePath (createPath p) = p.
Proof.
  intros p. split; [reflexivity | apply (parsePath_createPath p); reflexivity].
Defined.

(** X2. The pieces of any string: the pieces that [parsePath] yields, put
    together in the order pathname, search, hash, make up the string, and
    each piece present is well formed: the pathname is not empty and holds
    neither [?] nor [#], the search begins with [?] and holds no [#], the
    hash begins with [#]. *)
Theorem parsePath_yields_wf (path : Path) :
  let pieces := parsePath path in
  (default "" (pp_pathname pieces) +:+ default "" (pp_search pieces)
     +:+ default "" (pp_hash pieces))%string = path /\
  match pp_pathname pieces with Some x => wf_pathname x = true | None => True end /\
  match pp_search pieces with Some q => wf_search q = true | None => True end /\
  match pp_hash pieces with Some h => wf_hash h = true | None => True end.
Proof.
  destruct (parsePath_pieces path) as (Hcat & Hh & Hq & Hx).
  intros pieces. fold pieces in Hcat, Hh, Hq, Hx.
  split; [exact Hcat|]. split; [|split].
  - destruct (pp_pathname pieces) as [x|]; [|exact I].
    destruct (Hx x eq_refl) as (Hne & H1 & H2).
    unfold wf_pathname. rewrite H1, H2. now destruct x.
  - destruct (pp_search pieces) as [q|]; [|exact I].
    destruct (Hq q eq_refl) as (H1 & H2). unfold wf_search. now rewrite H1, H2.
  - destruct (pp_hash pieces) as [h|]; [|exact I]. exact (Hh h eq_refl).
Qed.

End PiecesRoundTrip.

(** ** Keys *)

Section Keys.

Lemma string_length_take n s :
  String.length (JS.take n s) = Nat.min n (String.length s).
Proof.
  revert s; induction n as [|n IH]; intros [|a s]; simpl; try reflexivity.
  now rewrite IH.
Qed.

(** X3. A key is the characters of the rendering from the third on, eight
    of them at most: fewer when the rendering is short, none when it has no
    more than two characters. *)
Theorem createKey_length (rnd : string) :
  createKey rnd = JS.take 8 (JS.drop 2 rnd) /\
  String.length (createKey rnd) = Nat.min 8 (String.length rnd - 2).
Proof.
  assert (He : createKey rnd = JS.take 8 (JS.drop 2 rnd)).
  { unfold createKey, JS.substr. cbn [Z.ltb Z.compare].
    set (n := JS.size rnd).
    assert (Hn : 0 <= n) by (subst n; unfold JS.size; lia).
    destruct (Z.le_gt_cases 2 n) as [H2|H2].
    - replace (Z.to_nat (Z.min 2 n)) with 2%nat by lia.
      destruct (Z.le_gt_cases 10 n) as [H10|H10].
      + f_equal. lia.
      + rewrite !take_all; try reflexivity; rewrite length_drop;
          subst n; unfold JS.size in *; lia.
    - rewrite !take_all; try reflexivity; rewrite ?length_drop;
        subst n; unfold JS.size in *; try lia.
      assert (Hd : forall k, (String.length rnd <= k)%nat -> JS.drop k rnd = "").
      { clear. induction rnd as [|a r IH]; intros [|k] Hk; simpl in *;
          try reflexivity; try lia. apply IH. lia. }
      rewrite !Hd by lia. reflexivity. }
  split; [exact He|]. rewrite He, string_length_take, length_drop. reflexivity.
Qed.

End Keys.

(** ** The in-memory history: what handlers are told *)

Module MemoryMore.
Import Memory.

Section Shape.

Implicit Types (h : MemoryHistory) (c : Call).

Lemma call_invoked_registered (handlers : Events.t) fn :
  fn ∈ (Events.call handlers).1 -> fn ∈ handlers.
Proof.
  induction handlers as [|g hs IH]; simpl; [intros Hin; exact Hin|].
  destruct (raises g).
  - simpl. intros Hin. apply elem_of_cons in Hin as [->|Hin];
      [apply elem_of_cons; now left | now apply elem_of_nil in Hin].
  - destruct (Events.call hs) as [invoked r]. simpl in *. intros Hin.
    apply elem_of_cons in Hin as [->|Hin]; apply elem_of_cons; [now left|].
    right. now apply IH.
Qed.

Lemma push_ending h to st rnd :
  Ending h Push (RetryPush to st) (push to st rnd h).
Proof.
  destruct (location h) as [cur|] eqn:Hl.
  - destruct (MemoryFacts.mem_notices_quiet "push" to cur) as [Hq1 Hq2].
    destruct (decide (blockers h = [])) as [Hb|Hb].
    + rewrite (MemoryFacts.mem_push_unblocked h cur to st rnd Hl Hb).
      eapply (EndCommitted h Push _ _
                {| entries := _; index := _; action := Push; location := _;
                   blockers := []; listeners := listeners h |});
        try assumption; try reflexivity. now rewrite Hb.
    + rewrite (MemoryFacts.mem_push_blocked h cur to st rnd Hl Hb).
      now apply EndVetoed.
  - rewrite (MemoryFacts.push_throws h to st rnd Hl). constructor.
Qed.

Lemma replace_ending h to st rnd :
  Ending h Replace (RetryReplace to st) (replace to st rnd h).
Proof.
  destruct (location h) as [cur|] eqn:Hl.
  - destruct (MemoryFacts.mem_notices_quiet "replace" to cur) as [Hq1 Hq2].
    destruct (decide (blockers h = [])) as [Hb|Hb].
    + destruct (array_set (entries h) (index h) (getNextLocation cur to st rnd))
        as [es|] eqn:Hs.
      * rewrite (MemoryFacts.mem_replace_unblocked h cur es to st rnd Hl Hb Hs).
        eapply (EndCommitted h Replace _ _
                  {| entries := _; index := _; action := Replace; location := _;
                     blockers := []; listeners := listeners h |});
          try assumption; try reflexivity. now rewrite Hb.
      * rewrite (MemoryFacts.replace_unmodelled h cur to st rnd Hl Hb Hs).
        now apply EndUnmodelled.
    + rewrite (MemoryFacts.mem_replace_blocked h cur to st rnd Hl Hb).
      now apply EndVetoed.
  - rewrite (MemoryFacts.replace_throws h to st rnd Hl). constructor.
Qed.

Lemma go_ending h n : Ending h Pop (RetryGo n) (go n h).
Proof.
  destruct (decide (blockers h = [])) as [Hb|Hb].
  - rewrite (MemoryFacts.go_unblocked h n Hb).
    eapply (EndCommitted h Pop _ []
              {| entries := _; index := _; action := Pop; location := _;
                 blockers := []; listeners := listeners h |});
      try assumption; try reflexivity. now rewrite Hb.
  - rewrite (MemoryFacts.go_blocked h n Hb).
    now apply (EndVetoed h Pop _ []).
Qed.

Lemma attempt_ending c h a r :
  call_action c = Some a -> call_retry c = Some r -> Ending h a r (run c h).
Proof.
  destruct c as [to st rnd|to st rnd|n| | |fn|fn|fn|fn|[to st|to st|n] rnd];
    cbn; intros [= <-] [= <-];
    auto using push_ending, replace_ending, go_ending.
Qed.

Lemma registration_quiet c h :
  call_action c = None -> (run c h).1.2 = [] /\ (run c h).2 = Returned tt.
Proof. destruct c; cbn; intros [=]; now split. Qed.

End Shape.

Section Told.

Implicit Types (h : MemoryHistory) (c : Call).

Lemma ending_listener_calls h a r res fn u :
  Ending h a r res ->
  (fn, u) ∈ listener_calls res.1.2 ->
  fn ∈ listeners h /\ u = mkUpdate (action res.1.1) (location res.1.1) /\
  action res.1.1 = a /\ blockers h = [].
Proof.
  intros He. destruct He as [|pre Hl Hb|pre lo Hne Hl Hb|pre h' He Hl Hb Ha Hls Hbs];
    cbn [fst snd]; autorewrite with calls; rewrite ?Hl; cbn [app].
  - intros Hin. now apply elem_of_nil in Hin.
  - intros Hin. now apply elem_of_nil in Hin.
  - intros Hin. now apply elem_of_nil in Hin.
  - intros Hin. apply list_elem_of_fmap in Hin as (g & [= -> ->] & Hg).
    rewrite Ha. repeat split; try assumption.
    now apply MemoryMore.call_invoked_registered.
Qed.

Lemma ending_blocker_calls h a r res fn tx :
  Ending h a r res ->
  (fn, tx) ∈ blocker_calls res.1.2 ->
  fn ∈ blockers h /\ res.1.1 = h /\ tx_action tx = a /\ tx_retry tx = r /\
  listener_calls res.1.2 = [].
Proof.
  intros He. destruct He as [|pre Hl Hb|pre lo Hne Hl Hb|pre h' He Hl Hb Ha Hls Hbs];
    cbn [fst snd]; autorewrite with calls; rewrite ?Hl, ?Hb; cbn [app].
  - intros Hin. now apply elem_of_nil in Hin.
  - intros Hin. now apply elem_of_nil in Hin.
  - intros Hin. apply list_elem_of_fmap in Hin as (g & [= -> ->] & Hg).
    repeat split. now apply MemoryMore.call_invoked_registered.
  - intros Hin. now apply elem_of_nil in Hin.
Qed.

Lemma called_is_registered c h fn :
  (forall u, (fn, u) ∈ listener_calls (run c h).1.2 -> fn ∈ listeners h) /\
  (forall tx, (fn, tx) ∈ blocker_calls (run c h).1.2 -> fn ∈ blockers h).
Proof.
  destruct (call_action c) as [a|] eqn:Ha.
  - assert (Hr : exists r, call_retry c = Some r)
      by (destruct c; try discriminate; eauto).
    destruct Hr as [r Hr].
    pose proof (attempt_ending c h a r Ha Hr) as He.
    split; intros x Hin.
    + now apply (ending_listener_calls h a r _ fn x He).
    + now apply (ending_blocker_calls h a r _ fn x He).
  - destruct (registration_quiet c h Ha) as [Hlog _]. rewrite Hlog.
    split; intros x Hin; now apply elem_of_nil in Hin.
Qed.

(** X4. What a listener is told, by a history whose handlers only return
    or raise: a handler of this development makes no call on the history
    while it is called.  Whenever a call on a memory history calls such a
    listener, the listener is registered, no blocker is, the update it
    receives is the action and the location that the call leaves in the
    history, and the action is that of the call: [Push] for a push,
    [Replace] for a replace, [Pop] for a move. *)
Theorem listener_told c h fn u :
  (fn, u) ∈ listener_calls (run c h).1.2 ->
  fn ∈ listeners h /\ blockers h = [] /\
  u = mkUpdate (action (after c h)) (location (after c h)) /\
  call_action c = Some (u_action u).
Proof.
  intros Hin. destruct (call_action c) as [a|] eqn:Ha.
  - assert (Hr : exists r, call_retry c = Some r)
      by (destruct c; try discriminate; eauto).
    destruct Hr as [r Hr].
    destruct (ending_listener_calls h a r (run c h) fn u
                (attempt_ending c h a r Ha Hr) Hin) as (H1 & H2 & H3 & H4).
    unfold after. repeat split; try assumption.
    rewrite H2. cbn [u_action]. now rewrite H3.
  - destruct (registration_quiet c h Ha) as [Hlog _]. rewrite Hlog in Hin.
    now apply elem_of_nil in Hin.
Qed.

Lemma listener_told_witness :
  let h := after (CUnblock blocker1) guarded in
  let c := CPush (ToPath "/x") Null "0.9x8y7z6w5v" in
  let u := mkUpdate Push (Some (mkLocation "/x" "" "" Null "9x8y7z6w")) in
  (listener1, u) ∈ listener_calls (run c h).1.2 /\
  u = mkUpdate (action (after c h)) (location (after c h)).
Proof.
  intros h c u.
  assert (Hin : (listener1, u) ∈ listener_calls (run c h).1.2)
    by (apply elem_of_cons; now left).
  split; [exact Hin|].
  exact (proj1 (proj2 (proj2 (listener_told c h listener1 u Hin)))).
Defined.

(** X5. What a blocker is told, by a history whose handlers only return
    or raise: no blocker calls [retry], removes itself or makes any other
    call on the history while it is called.  Whenever a call on a memory
    history calls such a blocker, the blocker is registered, the call has
    changed nothing and has called no listener, and the transition carries
    the action of the call and the closure that makes the same call
    again. *)
Theorem blocker_told c h fn tx :
  (fn, tx) ∈ blocker_calls (run c h).1.2 ->
  fn ∈ blockers h /\ after c h = h /\
  listener_calls (run c h).1.2 = [] /\
  call_action c = Some (tx_action tx) /\
  call_retry c = Some (tx_retry tx).
Proof.
  intros Hin. destruct (call_action c) as [a|] eqn:Ha.
  - assert (Hr : exists r, call_retry c = Some r)
      by (destruct c; try discriminate; eauto).
    destruct Hr as [r Hr].
    destruct (ending_blocker_calls h a r (run c h) fn tx
                (attempt_ending c h a r Ha Hr) Hin) as (H1 & H2 & H3 & H4 & H5).
    unfold after. rewrite H3, H4. repeat split; assumption.
  - destruct (registration_quiet c h Ha) as [Hlog _]. rewrite Hlog in Hin.
    now apply elem_of_nil in Hin.
Qed.

Lemma blocker_told_witness :
  let c := CPush (ToPath "/x") Null "0.9x8y7z6w5v" in
  let tx := mkTransition Push (Some (mkLocation "/x" "" "" Null "9x8y7z6w"))
                         (RetryPush (ToPath "/x") Null) in
  (blocker1, tx) ∈ blocker_calls (run c guarded).1.2 /\ after c guarded = guarded.
Proof.
  intros c tx.
  assert (Hin : (blocker1, tx) ∈ blocker_calls (run c guarded).1.2)
    by (apply elem_of_cons; now left).
  split; [exact Hin|].
  exact (proj1 (proj2 (blocker_told c guarded blocker1 tx Hin))).
Defined.

(** X6. A handler that has been removed is not called: after [unlisten]
    the next call calls the listener no more, after [unblock] it calls the
    blocker no more, however many times the handler had been registered. *)
Theorem removed_handler_silent c h fn :
  (forall u, (fn, u) ∉ listener_calls (run c (after (CUnlisten fn) h)).1.2) /\
  (forall tx, (fn, tx) ∉ blocker_calls (run c (after (CUnblock fn) h)).1.2).
Proof.
  split.
  - intros u Hin. apply (proj1 (called_is_registered c _ fn)) in Hin.
    cbn in Hin. now apply remove_not_elem in Hin.
  - intros tx Hin. apply (proj2 (called_is_registered c _ fn)) in Hin.
    cbn in Hin. now apply remove_not_elem in Hin.
Qed.

End Told.

Section Construction.

Lemma render_valid (p : Path) :
  valid_path p = true -> createPath (parsePath p) = p.
Proof.
  intros Hv. destruct (parsePath_pieces p) as (Hcat & Hh & Hq & Hx).
  unfold createPath.
  destruct (pp_pathname (parsePath p)) as [x|]; [exact Hcat|].
  exfalso. cbn [default from_option id] in Hcat.
  destruct (pp_search (parsePath p)) as [q|].
  - destruct (Hq q eq_refl) as [Hs _].
    destruct (starts_with_inv _ _ Hs) as [t ->].
    cbn in Hcat. rewrite <- Hcat in Hv. discriminate Hv.
  - destruct (pp_hash (parsePath p)) as [x|].
    + destruct (starts_with_inv _ _ (Hh x eq_refl)) as [t ->].
      cbn in Hcat. rewrite <- Hcat in Hv. discriminate Hv.
    + cbn in Hcat. rewrite <- Hcat in Hv. discriminate Hv.
Qed.

Lemma initial_location_absolute (p : Path) rnd :
  JS.starts_with "/" p = true ->
  let l := initial_location (ToPath p) rnd in
  createPath (path_of l) = p /\ JS.starts_with "/" (pathname l) = true /\
  state l = Undefined.
Proof.
  intros Ha l. pose proof (render_valid p (absolute_valid p Ha)) as Hr.
  assert (Hc : createPath (path_of l) = createPath (parsePath p)).
  { subst l. unfold createPath, path_of, initial_location.
    cbn [pp_pathname pp_search pp_hash pieces_of pathname search hash default
         from_option id]. reflexivity. }
  split; [now rewrite Hc|]. split; [|reflexivity].
  destruct (parsePath_pieces p) as (Hcat & _ & _ & Hx).
  subst l. unfold initial_location. cbn [pathname pieces_of].
  destruct (pp_pathname (parsePath p)) as [x|] eqn:Ex; [|reflexivity].
  cbn [default from_option id] in *.
  destruct (Hx x eq_refl) as (Hne & _).
  destruct x as [|a x']; [congruence|].
  destruct p as [|b p']; [discriminate|].
  change (String a (x' +:+ default "" (pp_search (parsePath (String b p')))
                       +:+ default "" (pp_hash (parsePath (String b p'))))%string
          = String b p') in Hcat.
  injection Hcat as -> _. exact Ha.
Qed.

Lemma initial_entries_absolute (paths : list Path) (draws : nat -> string) :
  Forall (fun p => JS.starts_with "/" p = true) paths ->
  let es := imap (fun i entry => initial_location entry (draws i)) (ToPath <$> paths) in
  (fun l => createPath (path_of l)) <$> es = paths /\
  Forall (fun l => state l = Undefined) es /\
  omap (fun '(entry, l) =>
          if JS.starts_with "/" (pathname l) then None
          else Some (Warn (RelativePathname "createMemoryHistory" entry)))
       (zip (ToPath <$> paths) es) = [].
Proof.
  intros Hall. revert draws.
  induction Hall as [|p ps Hp _ IH]; intros draws; [repeat split; constructor|].
  cbn zeta. rewrite fmap_cons, imap_cons.
  destruct (initial_location_absolute p (draws 0%nat) Hp) as (H1 & H2 & H3).
  destruct (IH (draws ∘ S)) as (I1 & I2 & I3).
  split; [|split].
  - rewrite fmap_cons. f_equal; [exact H1 | exact I1].
  - constructor; [exact H3 | exact I2].
  - cbn [zip zip_with omap list_omap]. rewrite H2. exact I3.
Qed.

(** X7. A memory history made from absolute path strings: each entry
    renders back to the string it was made from, has no state, and no notice
    is logged; the history starts with the action [Pop], without handlers,
    and, when there is a path, with the index clamped into the entries and
    the location at that index. *)
Theorem created_from_absolute (paths : list Path) (initialIndex : option Z)
    (draws : nat -> string) :
  Forall (fun p => JS.starts_with "/" p = true) paths ->
  let h := (createMemoryHistory (Some (ToPath <$> paths)) initialIndex draws).1 in
  (fun l => createPath (path_of l)) <$> entries h = paths /\
  Forall (fun l => state l = Undefined) (entries h) /\
  (createMemoryHistory (Some (ToPath <$> paths)) initialIndex draws).2 = [] /\
  action h = Pop /\ blockers h = [] /\ listeners h = [] /\
  (paths <> [] ->
     index h = clamp (default 0 initialIndex) 0 (Z.of_nat (length paths) - 1) /\
     cursor_ok h).
Proof.
  intros Hall h.
  destruct (initial_entries_absolute paths draws Hall) as (H1 & H2 & H3).
  subst h. unfold createMemoryHistory.
  cbn [fst snd entries index action location blockers listeners default
       from_option id].
  rewrite length_imap, length_fmap.
  do 6 (split; [first [assumption | reflexivity]|]).
  intros Hne. split; [reflexivity|].
  split; cbn [entries index location]; [|reflexivity].
  rewrite length_imap, length_fmap.
  apply MemoryFacts.clamp_range. destruct paths; [congruence | cbn [length]; lia].
Qed.

Lemma created_from_absolute_witness :
  let paths := ["/a"; "/b?x=1"; "/c#top"] in
  let h := (createMemoryHistory (Some (ToPath <$> paths)) (Some 9)
              (fun _ => "0.4fzzzxjylrx")).1 in
  Forall (fun p => JS.starts_with "/" p = true) paths /\
  (fun l => createPath (path_of l)) <$> entries h = paths /\ index h = 2.
Proof.
  intros paths h.
  assert (Hall : Forall (fun p => JS.starts_with "/" p = true) paths)
    by (repeat constructor).
  destruct (created_from_absolute paths (Some 9) (fun _ => "0.4fzzzxjylrx") Hall)
    as (H1 & _ & _ & _ & _ & _ & H7).
  split; [exact Hall|]. split; [exact H1|].
  destruct (H7 ltac:(discriminate)) as [Hi _]. exact Hi.
Defined.

Lemma stuck_after c h : stuck h -> stuck (after c h).
Proof.
  intros (He & Hi & Hl). unfold after.
  assert (Hgo : forall n, stuck (go n h).1.1).
  { intros n. destruct (decide (blockers h = [])) as [Hb|Hb].
    - rewrite (MemoryFacts.go_unblocked h n Hb). cbn [fst].
      unfold stuck. cbn [entries index location]. rewrite He, Hi.
      repeat split.
      + unfold clamp. cbn [length]. lia.
      + unfold array_get. destruct (_ <? 0); [reflexivity | apply lookup_nil].
    - rewrite (MemoryFacts.go_blocked h n Hb). now repeat split. }
  destruct c as [to st rnd|to st rnd|n| | |fn|fn|fn|fn|[to st|to st|n] rnd];
    cbn [run retry]; unfold back, forward;
    rewrite ?(MemoryFacts.push_throws h _ _ _ Hl),
            ?(MemoryFacts.replace_throws h _ _ _ Hl);
    try apply Hgo; now repeat split.
Qed.

(** X8. Without initial entries a memory history is of no use: after any
    calls it still has no entry, the index [-1] and no location, every push
    and every replace throws a [TypeError] and changes nothing. *)
Theorem empty_history_stuck (initialIndex : option Z) (draws : nat -> string)
    (cs : list Call) :
  let h := run_all cs (createMemoryHistory (Some []) initialIndex draws).1 in
  entries h = [] /\ index h = -1 /\ location h = None /\
  (forall to st rnd,
     push to st rnd h = (h, [], Threw TypeError) /\
     replace to st rnd h = (h, [], Threw TypeError)).
Proof.
  intros h.
  assert (H0 : stuck (createMemoryHistory (Some []) initialIndex draws).1).
  { unfold stuck, createMemoryHistory. cbn [fst entries index location].
    change (imap _ (default [ToPath "/"] (Some []))) with (@nil Location).
    assert (Hc : clamp (default 0 initialIndex) 0 (Z.of_nat (length (@nil Location)) - 1)
                 = -1) by (unfold clamp; cbn [length]; lia).
    rewrite Hc. repeat split. }
  assert (Hs : stuck h).
  { subst h. revert H0.
    generalize (createMemoryHistory (Some []) initialIndex draws).1.
    induction cs as [|c cs IH]; intros h0 H0; [exact H0|].
    apply IH, stuck_after, H0. }
  destruct Hs as (He & Hi & Hl). repeat split; try assumption.
  - now apply MemoryFacts.push_throws.
  - now apply MemoryFacts.replace_throws.
Qed.

End Construction.

Section Composition.

Implicit Types (h : MemoryHistory) (c : Call) (to : To) (st : StateVal)
               (rnd : string).

(** The history after a push, a replace and a move, without blocker. *)
Lemma after_push h cur to st rnd :
  cursor_ok h -> location h = Some cur -> blockers h = [] ->
  after (CPush to st rnd) h
  = {| entries := take (Z.to_nat (index h) + 1) (entries h)
                    ++ [getNextLocation cur to st rnd];
       index := index h + 1; action := Push;
       location := Some (getNextLocation cur to st rnd);
       blockers := []; listeners := listeners h |}.
Proof.
  intros [Hi _] Hl Hb. unfold after. cbn [run].
  rewrite (MemoryFacts.mem_push_unblocked h cur to st rnd Hl Hb). cbn [fst].
  rewrite MemoryFacts.splice_truncates by lia.
  now replace (Z.to_nat (index h + 1)) with (Z.to_nat (index h) + 1)%nat by lia.
Qed.

Lemma after_replace h cur to st rnd :
  cursor_ok h -> location h = Some cur -> blockers h = [] ->
  after (CReplace to st rnd) h
  = {| entries := <[Z.to_nat (index h) := getNextLocation cur to st rnd]> (entries h);
       index := index h; action := Replace;
       location := Some (getNextLocation cur to st rnd);
       blockers := []; listeners := listeners h |}.
Proof.
  intros [Hi _] Hl Hb. unfold after. cbn [run].
  now rewrite (MemoryFacts.mem_replace_unblocked h cur _ to st rnd Hl Hb
                 (MemoryFacts.array_set_in_range _ _ _ Hi)).
Qed.

Lemma after_go h n :
  blockers h = [] ->
  after (CGo n) h
  = {| entries := entries h;
       index := clamp (index h + n) 0 (Z.of_nat (length (entries h)) - 1);
       action := Pop;
       location := array_get (entries h)
                     (clamp (index h + n) 0 (Z.of_nat (length (entries h)) - 1));
       blockers := []; listeners := listeners h |}.
Proof.
  intros Hb. unfold after. cbn [run]. now rewrite (MemoryFacts.go_unblocked h n Hb).
Qed.

(** X9. No call changes the entries before the cursor: whatever the call,
    the entries at the positions below the index are afterwards what they
    were. *)
Theorem entries_before_cursor_kept c h :
  cursor_ok h ->
  take (Z.to_nat (index h)) (entries (after c h))
  = take (Z.to_nat (index h)) (entries h).
Proof.
  intros Hok. destruct (MemoryFacts.cursor_ok_location h Hok) as (cur & Hl & _).
  pose proof Hok as [Hi _].
  assert (Hp : forall to st rnd,
            take (Z.to_nat (index h)) (entries (after (CPush to st rnd) h))
            = take (Z.to_nat (index h)) (entries h)).
  { intros to st rnd. destruct (decide (blockers h = [])) as [Hb|Hb].
    - rewrite (after_push h cur to st rnd Hok Hl Hb). cbn [entries].
      rewrite take_app_le by (rewrite length_take; lia).
      rewrite take_take. f_equal. lia.
    - unfold after. cbn [run].
      now rewrite (MemoryFacts.mem_push_blocked h cur to st rnd Hl Hb). }
  assert (Hr : forall to st rnd,
            take (Z.to_nat (index h)) (entries (after (CReplace to st rnd) h))
            = take (Z.to_nat (index h)) (entries h)).
  { intros to st rnd. destruct (decide (blockers h = [])) as [Hb|Hb].
    - rewrite (after_replace h cur to st rnd Hok Hl Hb). cbn [entries].
      now apply take_insert_ge.
    - unfold after. cbn [run].
      now rewrite (MemoryFacts.mem_replace_blocked h cur to st rnd Hl Hb). }
  assert (Hg : forall n, entries (after (CGo n) h) = entries h).
  { intros n. destruct (decide (blockers h = [])) as [Hb|Hb].
    - now rewrite (after_go h n Hb).
    - unfold after. cbn [run]. now rewrite (MemoryFacts.go_blocked h n Hb). }
  destruct c as [to st rnd|to st rnd|n| | |fn|fn|fn|fn|[to st|to st|n] rnd];
    try reflexivity.
  - apply Hp.
  - apply Hr.
  - now rewrite Hg.
  - change (after CBack h) with (after (CGo (-1)) h). now rewrite Hg.
  - change (after CForward h) with (after (CGo 1) h). now rewrite Hg.
  - apply Hp.
  - apply Hr.
  - change (after (CRetry (RetryGo n) rnd) h) with (after (CGo n) h).
    now rewrite Hg.
Qed.

Lemma entries_before_cursor_kept_witness :
  let a := mkLocation "/a" "" "" Undefined "k1" in
  let b := mkLocation "/b" "" "" Undefined "k2" in
  let c := mkLocation "/c" "" "" Undefined "k3" in
  let h := mkMemoryHistory [a; b; c] 1 Pop (Some b) [] [] in
  take 1 (entries (after (CPush (ToPath "/d") Null "0.9x8y7z6w5v") h)) = [a].
Proof.
  intros a b c h.
  assert (Hok : cursor_ok h) by (split; [cbn; lia | reflexivity]).
  exact (entries_before_cursor_kept (CPush (ToPath "/d") Null "0.9x8y7z6w5v") h Hok).
Defined.

(** X10. A push can be undone and redone: without blocker, after a push
    [go (-1)] is back at the location and the index from before the push,
    and [go 1] is at the pushed location again. *)
Theorem push_then_back_and_forward h to st rnd :
  cursor_ok h -> blockers h = [] ->
  let pushed := after (CPush to st rnd) h in
  let undone := after (CGo (-1)) pushed in
  let redone := after (CGo 1) undone in
  location undone = location h /\ index undone = index h /\
  location redone = location pushed /\ index redone = index h + 1 /\
  entries redone = entries pushed.
Proof.
  intros Hok Hb pushed undone redone.
  destruct (MemoryFacts.cursor_ok_location h Hok) as (cur & Hl & Hcur).
  pose proof Hok as [Hi Hloc].
  subst redone undone pushed.
  rewrite (after_push h cur to st rnd Hok Hl Hb).
  rewrite !after_go by reflexivity. cbn [entries index location].
  set (es := take (Z.to_nat (index h) + 1) (entries h)
               ++ [getNextLocation cur to st rnd]).
  assert (Hlen : Z.of_nat (length es) = index h + 2).
  { subst es. rewrite length_app, length_take. cbn [length]. lia. }
  assert (H1 : clamp (index h + 1 + -1) 0 (Z.of_nat (length es) - 1) = index h)
    by (unfold clamp; lia).
  rewrite H1.
  assert (H2 : clamp (index h + 1) 0 (Z.of_nat (length es) - 1) = index h + 1)
    by (unfold clamp; lia).
  rewrite H2.
  assert (Hget : array_get es (index h) = Some cur).
  { unfold array_get. destruct (index h <? 0) eqn:E; [lia|].
    subst es. rewrite lookup_app_l by (rewrite length_take; lia).
    rewrite lookup_take_lt by lia. exact Hcur. }
  assert (Hget2 : array_get es (index h + 1) = Some (getNextLocation cur to st rnd)).
  { unfold array_get. destruct (index h + 1 <? 0) eqn:E; [lia|].
    subst es. rewrite lookup_app_r by (rewrite length_take; lia).
    rewrite length_take.
    replace (Z.to_nat (index h + 1) - (Z.to_nat (index h) + 1) `min` length (entries h))%nat
      with 0%nat by lia.
    reflexivity. }
  rewrite Hget, Hget2, Hl. repeat split.
Qed.

Lemma push_then_back_and_forward_witness :
  let a := mkLocation "/a" "" "" Undefined "k1" in
  let b := mkLocation "/b" "" "" Undefined "k2" in
  let h := mkMemoryHistory [a; b] 0 Pop (Some a) [] [] in
  location (after (CGo (-1)) (after (CPush (ToPath "/c") Null "0.9x8y7z6w5v") h))
  = Some a.
Proof.
  intros a b h.
  assert (Hok : cursor_ok h) by (split; [cbn; lia | reflexivity]).
  exact (proj1 (push_then_back_and_forward h (ToPath "/c") Null "0.9x8y7z6w5v"
                  Hok eq_refl)).
Defined.

(** X11. Replacing twice: without blocker the second replace overwrites
    the first at the same index, the depth stays, and the pieces missing
    from the second [to] come from the location of the first replace. *)
Theorem replace_twice h cur to1 st1 rnd1 to2 st2 rnd2 :
  cursor_ok h -> location h = Some cur -> blockers h = [] ->
  let next1 := getNextLocation cur to1 st1 rnd1 in
  let next2 := getNextLocation next1 to2 st2 rnd2 in
  let h2 := after (CReplace to2 st2 rnd2) (after (CReplace to1 st1 rnd1) h) in
  entries h2 = <[Z.to_nat (index h) := next2]> (entries h) /\
  length (entries h2) = length (entries h) /\
  index h2 = index h /\ location h2 = Some next2 /\ action h2 = Replace.
Proof.
  intros Hok Hl Hb next1 next2 h2. subst h2.
  rewrite (after_replace h cur to1 st1 rnd1 Hok Hl Hb).
  pose proof Hok as [Hi _].
  rewrite (after_replace _ next1 to2 st2 rnd2); try reflexivity.
  - cbn [entries index location action]. fold next1 next2.
    rewrite list_insert_insert_eq, length_insert. repeat split.
  - split; cbn [entries index location].
    + rewrite length_insert. lia.
    + symmetry. now apply MemoryFacts.array_get_set.
Qed.

Lemma replace_twice_witness :
  let a := mkLocation "/a" "" "" Undefined "k1" in
  let b := mkLocation "/b" "" "" Undefined "k2" in
  let h := mkMemoryHistory [a; b] 1 Pop (Some b) [] [] in
  let h2 := after (CReplace (ToPath "#y") Null "0.22222222zz")
                  (after (CReplace (ToPath "/x") Null "0.11111111zz") h) in
  entries h2 = [a; mkLocation "/x" "" "#y" Null "22222222"].
Proof.
  intros a b h h2.
  assert (Hok : cursor_ok h) by (split; [cbn; lia | reflexivity]).
  exact (proj1 (replace_twice h b (ToPath "/x") Null "0.11111111zz"
                  (ToPath "#y") Null "0.22222222zz" Hok eq_refl eq_refl)).
Defined.



(** X13. Moves add up as long as the first one stays inside the entries:
    without blocker, [go n] followed by [go m] leaves the history that
    [go (n + m)] leaves. *)
Theorem go_then_go h (n m : Z) :
  blockers h = [] ->
  0 <= index h + n <= Z.of_nat (length (entries h)) - 1 ->
  after (CGo m) (after (CGo n) h) = after (CGo (n + m)) h.
Proof.
  intros Hb Hin. rewrite (after_go h n Hb), (after_go h (n + m) Hb).
  rewrite after_go by reflexivity. cbn [entries index listeners].
  assert (Hc : clamp (index h + n) 0 (Z.of_nat (length (entries h)) - 1) = index h + n)
    by (unfold clamp; lia).
  rewrite Hc. now replace (index h + n + m) with (index h + (n + m)) by lia.
Qed.

Lemma go_then_go_witness :
  let a := mkLocation "/a" "" "" Undefined "k1" in
  let b := mkLocation "/b" "" "" Undefined "k2" in
  let c := mkLocation "/c" "" "" Undefined "k3" in
  let h := mkMemoryHistory [a; b; c] 0 Pop (Some a) [] [] in
  after (CGo (-1)) (after (CGo 2) h) = after (CGo 1) h.
Proof.
  intros a b c h.
  exact (go_then_go h 2 (-1) eq_refl ltac:(cbn; lia)).
Defined.

(** X14. The notice of a push or a replace on a memory history is about
    the location the history is at, not about the one it is asked to go to:
    a notice is logged exactly when the pathname of the current location is
    relative, whatever [to] is. *)
Theorem memory_notice_is_about_current h cur to st rnd w :
  location h = Some cur ->
  (Warn w ∈ (push to st rnd h).1.2 <->
     JS.starts_with "/" (pathname cur) = false /\ w = RelativePathname "push" to) /\
  (Warn w ∈ (replace to st rnd h).1.2 <->
     JS.starts_with "/" (pathname cur) = false /\ w = RelativePathname "replace" to).
Proof.
  intros Hl.
  assert (Hfan : forall A (mk : Handler -> A -> Effect) hs (x : A),
             (forall fn y, mk fn y <> Warn w) -> Warn w ∉ fan_log mk hs x).
  { intros A mk hs x Hmk Hin. unfold fan_log in Hin.
    apply list_elem_of_fmap in Hin as (g & Hg & _). symmetry in Hg. now apply Hmk in Hg. }
  assert (Hnot : forall api,
             Warn w ∈ notices api to cur <->
             JS.starts_with "/" (pathname cur) = false /\ w = RelativePathname api to).
  { intros api. unfold notices, warn_log.
    destruct (JS.starts_with "/" (pathname cur)).
    - split; [intros Hin; now apply elem_of_nil in Hin | intros [[=] _]].
    - split.
      + intros Hin. apply list_elem_of_singleton in Hin. injection Hin as ->. now split.
      + intros [_ ->]. now apply list_elem_of_singleton. }
  assert (Hsplit : forall api (rest : list Effect),
             Warn w ∉ rest ->
             (Warn w ∈ notices api to cur ++ rest <->
              JS.starts_with "/" (pathname cur) = false /\ w = RelativePathname api to)).
  { intros api rest Hrest. rewrite elem_of_app, Hnot. tauto. }
  split.
  - destruct (decide (blockers h = [])) as [Hb|Hb].
    + rewrite (MemoryFacts.mem_push_unblocked h cur to st rnd Hl Hb). cbn [fst snd].
      apply Hsplit, Hfan. discriminate.
    + rewrite (MemoryFacts.mem_push_blocked h cur to st rnd Hl Hb). cbn [fst snd].
      apply Hsplit, Hfan. discriminate.
  - destruct (decide (blockers h = [])) as [Hb|Hb].
    + destruct (array_set (entries h) (index h) (getNextLocation cur to st rnd))
        as [es|] eqn:Hs.
      * rewrite (MemoryFacts.mem_replace_unblocked h cur es to st rnd Hl Hb Hs).
        cbn [fst snd]. apply Hsplit, Hfan. discriminate.
      * rewrite (MemoryFacts.replace_unmodelled h cur to st rnd Hl Hb Hs).
        cbn [fst snd]. apply Hnot.
    + rewrite (MemoryFacts.mem_replace_blocked h cur to st rnd Hl Hb). cbn [fst snd].
      apply Hsplit, Hfan. discriminate.
Qed.

Lemma memory_notice_is_about_current_witness :
  let a := mkLocation "/a" "" "" Undefined "k1" in
  let h := mkMemoryHistory [a] 0 Pop (Some a) [] [] in
  let res := push (ToPath "relative") Null "0.9x8y7z6w5v" h in
  (Warn (RelativePathname "push" (ToPath "relative")) ∉ res.1.2) /\
  pathname <$> location res.1.1 = Some "relative".
Proof.
  intros a h res. split; [|reflexivity].
  intros Hin.
  apply (proj1 (memory_notice_is_about_current h a (ToPath "relative") Null
                  "0.9x8y7z6w5v" _ eq_refl)) in Hin.
  destruct Hin as [Hrel _]. discriminate Hrel.
Defined.

End Composition.

End MemoryMore.

(** ** The URL-backed histories: reading back what was written *)

Module UrlMore.
Import Url.

Section Encoding.

Context {W : Type} `{Platform W}.
Implicit Types (h : UrlHistory (W := W)) (b : Backend) (w : W).

(** X15. The state of a push read back.  With no blocker, on a platform
    whose [history.state] after the push is the state that the push wrote,
    the index moves on by one and the location of the history has the state
    and the key that the push wrote: a state that was [undefined] reads
    [null], and an empty key reads ["default"]. *)
Theorem pushed_state_reads_back b h to st rnd :
  blockers h = [] ->
  let next := getNextLocation (location h) to st rnd in
  let h' := (push b to st rnd h).1.1 in
  history_state (window h')
    = Some (getHistoryStateAndUrl b (window h) next (Some (num_add (index h) 1))).1 ->
  index h' = Some (num_add (index h) 1) /\
  state (location h') = usr_or_null st /\
  key (location h') = key_or_default (Some (createKey rnd)) /\
  action h' = Push.
Proof.
  intros Hb next h' Hst. subst h'.
  rewrite (UrlFacts.url_push_unblocked b h to st rnd Hb) in *. cbn [fst] in *.
  fold next in Hst |- *.
  unfold applied in *. cbn [window index location action] in *.
  unfold getIndexAndLocation. rewrite Hst.
  cbn [default from_option id fst snd getHistoryStateAndUrl idx usr hkey
       state key]. repeat split.
Qed.

Lemma getBaseHref_no_hash w : JS.includes "#" (getBaseHref w) = false.
Proof.
  unfold getBaseHref. destruct (doc_has_base_href w); [|reflexivity].
  destruct (JS.indexOf "#" (win_href w) =? -1) eqn:E.
  - apply Z.eqb_eq in E.
    pose proof (indexOf_from_absent "#" (win_href w) 0 ltac:(lia)) as Ha.
    fold (JS.indexOf "#" (win_href w)) in Ha. rewrite E in Ha. simpl in Ha.
    now destruct (JS.includes "#" (win_href w)).
  - apply Z.eqb_neq in E.
    destruct (indexOf_range "#" (win_href w)) as [Hr|Hr]; [congruence|].
    destruct (take_indexOf_from "#" (win_href w) 0 ltac:(lia) (proj1 Hr)) as [H1 _].
    fold (JS.indexOf "#" (win_href w)) in H1. now rewrite Z.sub_0_r in H1.
Qed.

(** The base cut off an href of the hash history, and what is left. *)
Lemma hash_href_cut w (path : string) :
  let href := (getBaseHref w +:+ "#" +:+ path)%string in
  JS.substr href 0 (JS.indexOf "#" href) = getBaseHref w /\
  JS.substr_from href (JS.indexOf "#" href) = String "#" path.
Proof.
  intros href.
  pose proof (cut_app "#" (getBaseHref w) path (getBaseHref_no_hash w)) as Hcut.
  cbv zeta in Hcut.
  change (getBaseHref w +:+ String "#" path)%string with href in Hcut.
  assert (Hi : 0 <= JS.indexOf "#" href).
  { destruct (0 <=? JS.indexOf "#" href) eqn:E; [now apply Z.leb_le|discriminate]. }
  apply Z.leb_le in Hi. rewrite Hi in Hcut. injection Hcut as H1 H2.
  now rewrite H1, H2.
Qed.

(** X16. The href of the hash history carries the path in its fragment:
    the href is the base up to its first [#] followed by [#] and the path,
    so that the fragment, from the first [#] of the href on, is [#] and the
    path, whatever [#] the path itself holds. *)
Theorem hash_href_fragment w (to : To) :
  let path := match to with ToPath p => p | ToPieces pieces => createPath pieces end in
  let href := createHref Hash w to in
  JS.substr href 0 (JS.indexOf "#" href) = getBaseHref w /\
  JS.substr_from href (JS.indexOf "#" href) = String "#" path /\
  JS.substr_from (JS.substr_from href (JS.indexOf "#" href)) 1 = path.
Proof.
  intros path href.
  assert (Hh : href = (getBaseHref w +:+ "#" +:+ path)%string).
  { subst href path. unfold createHref. now destruct to. }
  destruct (hash_href_cut w path) as [H1 H2]. cbv zeta in H1, H2.
  rewrite <- Hh in H1, H2. rewrite H1, H2. repeat split.
  rewrite substr_suffix by (unfold JS.size; cbn [String.length]; lia).
  reflexivity.
Qed.

(** X17. What the hash history writes it reads back: when the fragment of
    the window is the one of the href made for a well-formed location, the
    location read from the window has the pathname, the search and the hash
    of that location. *)
Theorem hash_location_reads_back w w' (l : Location) :
  wf_location l = true ->
  win_hash w'
    = (let href := createHref Hash w (ToPieces (path_of l)) in
       JS.substr_from href (JS.indexOf "#" href)) ->
  let l' := (getIndexAndLocation Hash w').2 in
  pathname l' = pathname l /\ search l' = search l /\ hash l' = hash l.
Proof.
  intros Hwf Hwin l'.
  destruct (hash_href_cut w (createPath (path_of l))) as [_ Hfrag].
  cbv zeta in Hwin, Hfrag.
  change (createHref Hash w (ToPieces (path_of l)))
    with (getBaseHref w +:+ "#" +:+ createPath (path_of l))%string in Hwin.
  rewrite Hfrag in Hwin.
  subst l'. unfold getIndexAndLocation. rewrite Hwin.
  rewrite substr_suffix by (unfold JS.size; cbn [String.length]; lia).
  change (JS.drop (Z.to_nat 1) (String "#" (createPath (path_of l))))
    with (createPath (path_of l)).
  unfold wf_location in Hwf.
  apply andb_prop in Hwf as [Hwf Hh]. apply andb_prop in Hwf as [Hx Hq].
  assert (Hq' : JS.truthy (search l) = false \/ wf_search (search l) = true).
  { apply orb_prop in Hq as [Hq|Hq]; [left; now apply negb_true_iff | now right]. }
  assert (Hh' : JS.truthy (hash l) = false \/ wf_hash (hash l) = true).
  { apply orb_prop in Hh as [Hh|Hh]; [left; now apply negb_true_iff | now right]. }
  unfold createPath, path_of.
  cbn [pp_pathname pp_search pp_hash default from_option id].
  rewrite (parsePath_concat _ _ _ Hx Hq' Hh').
  cbn [snd pathname search hash pp_pathname pp_search pp_hash default
       from_option id].
  repeat split.
  - now destruct (search l).
  - now destruct (hash l).
Qed.

End Encoding.

Section EncodingExamples.

Lemma pushed_state_reads_back_witness :
  let h := (unblock Sim.blk Sim.at_b).1.1 in
  let h' := (push Browser (ToPath "/c") Undefined "0." h).1.1 in
  blockers h = [] /\
  index h' = Some (Int 2) /\ state (location h') = Null /\
  key (location h') = "default".
Proof.
  intros h h'.
  assert (Hb : blockers h = []) by reflexivity.
  assert (Hst : history_state (window h')
                = Some (getHistoryStateAndUrl Browser (window h)
                          (getNextLocation (location h) (ToPath "/c") Undefined "0.")
                          (Some (num_add (index h) 1))).1)
    by (vm_compute; reflexivity).
  destruct (pushed_state_reads_back Browser h (ToPath "/c") Undefined "0." Hb Hst)
    as (Hi & Hs & Hk & _).
  split; [exact Hb|]. split; [exact Hi|]. split; [exact Hs | exact Hk].
Defined.

Lemma hash_location_reads_back_witness :
  let l := mkLocation "/a/b" "?x=1" "#top" Null "k" in
  let w := Sim.mkWindow [Sim.mkEntry None "/index.html" "" ""] 0 [] false in
  let w' := Sim.mkWindow [Sim.mkEntry None "/index.html" "" "#/a/b?x=1#top"] 0 [] false in
  wf_location l = true /\
  pathname (getIndexAndLocation Hash w').2 = "/a/b" /\
  search (getIndexAndLocation Hash w').2 = "?x=1" /\
  hash (getIndexAndLocation Hash w').2 = "#top".
Proof.
  intros l w w'. split; [reflexivity|].
  exact (hash_location_reads_back w w' l eq_refl eq_refl).
Defined.

End EncodingExamples.

Section Pops.

Context {W : Type} `{Platform W}.
Implicit Types (h : UrlHistory (W := W)) (b : Backend) (w : W).

(** X18. Pops that a blocker cannot veto and that are not applied either.
    With a blocker registered and no transition held, a pop detected on an
    entry without index only logs a notice, and a pop detected on an entry
    with the index of the history, or while the index of the history or of
    the entry is not a number, logs nothing: in all these cases no handler
    is called and the history is as it was, whatever the window has
    become. *)
Theorem pop_neither_blocked_nor_applied b h :
  blockers h <> [] -> blockedPopTx h = None ->
  ((getIndexAndLocation b (window h)).1 = None ->
     handlePop b h = (h, [Warn UnblockablePop], Returned tt)) /\
  (forall i, index h = Some (Int i) ->
     (getIndexAndLocation b (window h)).1 = Some (Int i) ->
     handlePop b h = (h, [], Returned tt)) /\
  (forall j, (getIndexAndLocation b (window h)).1 = Some j ->
     num_sub (index h) (Some j) = NaN ->
     handlePop b h = (h, [], Returned tt)).
Proof.
  intros Hb Ht. split; [|split].
  - intros Hn. unfold handlePop, bind, get. rewrite Ht.
    destruct (getIndexAndLocation b (window h)) as [nextIndex l].
    cbn [fst] in Hn. subst nextIndex.
    rewrite (length_nonzero _ Hb). cbn [negb]. rewrite warning_run.
    reflexivity.
  - intros i Hi Hn. unfold handlePop, bind, get. rewrite Ht.
    destruct (getIndexAndLocation b (window h)) as [nextIndex l].
    cbn [fst] in Hn. subst nextIndex.
    rewrite (length_nonzero _ Hb). cbn [negb]. rewrite Hi. cbn [num_sub].
    rewrite Z.sub_diag. reflexivity.
  - intros j Hn Hnan. unfold handlePop, bind, get. rewrite Ht.
    destruct (getIndexAndLocation b (window h)) as [nextIndex l].
    cbn [fst] in Hn. subst nextIndex.
    rewrite (length_nonzero _ Hb). cbn [negb]. rewrite Hnan. reflexivity.
Qed.

(** A history whose cursor is what its window reports ignores a
    [hashchange]. *)
Lemma hashchange_in_step h :
  location h = (getIndexAndLocation Hash (window h)).2 ->
  handleHashChange h = (h, [], Returned tt).
Proof.
  intros Hl. unfold handleHashChange, bind, get.
  destruct (getIndexAndLocation Hash (window h)) as [i l]. cbn [snd] in Hl.
  rewrite <- Hl, String.eqb_refl. reflexivity.
Qed.

(** X19. The hash history does not hear its own writes twice: the
    [hashchange] event that follows a push or a replace it has committed, or
    a pop it has applied, finds the location already in place and does
    nothing. *)
Theorem own_hashchange_ignored h to st rnd :
  blockers h = [] ->
  let pushed := (push Hash to st rnd h).1.1 in
  let replaced := (replace Hash to st rnd h).1.1 in
  handleHashChange pushed = (pushed, [], Returned tt) /\
  handleHashChange replaced = (replaced, [], Returned tt) /\
  (blockedPopTx h = None ->
     let popped := (handlePop Hash h).1.1 in
     handleHashChange popped = (popped, [], Returned tt)).
Proof.
  intros Hb pushed replaced. subst pushed replaced.
  rewrite (UrlFacts.url_push_unblocked Hash h to st rnd Hb).
  rewrite (UrlFacts.url_replace_unblocked Hash h to st rnd Hb).
  split; [|split].
  - now apply hashchange_in_step.
  - now apply hashchange_in_step.
  - intros Ht popped. subst popped.
    rewrite (UrlFacts.handlePop_unblocked Hash h Ht Hb).
    now apply hashchange_in_step.
Qed.

End Pops.

Section PopsExamples.

Lemma pop_neither_blocked_nor_applied_witness :
  let foreign := Sim.mkEntry (Some (mkHistoryState Undefined None None)) "/f" "" "" in
  let h := set_window (Sim.mkWindow [foreign] 0 [] true) Sim.at_b in
  blockers h <> [] /\ blockedPopTx h = None /\
  handlePop Browser h = (h, [Warn UnblockablePop], Returned tt).
Proof.
  intros foreign h.
  assert (Hb : blockers h <> []) by discriminate.
  destruct (pop_neither_blocked_nor_applied Browser h Hb eq_refl) as (Hn & _ & _).
  split; [exact Hb|]. split; [reflexivity|]. exact (Hn eq_refl).
Defined.

Lemma own_hashchange_ignored_witness :
  let h := createHashHistory
             (Sim.mkWindow [Sim.mkEntry None "/index.html" "" "#/a"] 0 [] false) in
  let pushed := (push Hash (ToPath "/b?x=1") Null "0.9x8y7z6w5v" h).1.1 in
  blockers h = [] /\
  pathname (location pushed) = "/b" /\
  handleHashChange pushed = (pushed, [], Returned tt).
Proof.
  intros h pushed.
  destruct (own_hashchange_ignored h (ToPath "/b?x=1") Null "0.9x8y7z6w5v" eq_refl)
    as (Hp & _).
  split; [reflexivity|]. split; [reflexivity | exact Hp].
Defined.

End PopsExamples.

Section Sequences.

Context {W : Type} `{Unloading W}.
Implicit Types (h : UrlHistory (W := W)) (b : Backend) (c : UrlCalls.Call).

Lemma same_guard_refl h : same_guard h h.
Proof. now split. Qed.

Lemma push_same_guard b h to st rnd : same_guard h (push b to st rnd h).1.1.
Proof.
  destruct (decide (blockers h = [])) as [Hb|Hb].
  - rewrite (UrlFacts.url_push_unblocked b h to st rnd Hb). cbn [fst].
    split; [|reflexivity]. unfold applied, pushed. cbn [window].
    destruct (getHistoryStateAndUrl b (window h) _ _) as [hs url].
    destruct (pushState hs url (window h)) as [w'|] eqn:E.
    + now apply (beforeunload_pushState hs url).
    + apply beforeunload_location_assign.
  - rewrite (UrlFacts.url_push_blocked b h to st rnd Hb). apply same_guard_refl.
Qed.

Lemma replace_same_guard b h to st rnd : same_guard h (replace b to st rnd h).1.1.
Proof.
  destruct (decide (blockers h = [])) as [Hb|Hb].
  - rewrite (UrlFacts.url_replace_unblocked b h to st rnd Hb). cbn [fst].
    split; [|reflexivity]. unfold applied, replaced. cbn [window].
    destruct (getHistoryStateAndUrl b (window h) _ _) as [hs url].
    apply beforeunload_replaceState.
  - rewrite (UrlFacts.url_replace_blocked b h to st rnd Hb). apply same_guard_refl.
Qed.

Lemma go_same_guard h n : same_guard h (go n h).1.1.
Proof. split; [apply beforeunload_history_go | reflexivity]. Qed.

Lemma handlePop_same_guard b h : same_guard h (handlePop b h).1.1.
Proof.
  destruct (blockedPopTx h) as [tx|] eqn:Ht.
  - rewrite (UrlFacts.handlePop_held b h tx Ht). cbn [fst].
    destruct (fan_outcome (blockers h)); now split.
  - destruct (decide (blockers h = [])) as [Hb|Hb].
    + rewrite (UrlFacts.handlePop_unblocked b h Ht Hb). cbn [fst].
      unfold applied. destruct (getIndexAndLocation b (window h)). now split.
    + unfold handlePop, bind, get. rewrite Ht.
      destruct (getIndexAndLocation b (window h)) as [nextIndex l].
      rewrite (length_nonzero _ Hb). cbn [negb].
      destruct nextIndex as [nextIndex|]; [|now split].
      destruct (num_sub (index h) (Some nextIndex)) as [|n]; [now split|].
      destruct (n =? 0); [now split|].
      cbn. split; [apply beforeunload_history_go | reflexivity].
Qed.

Lemma handleHashChange_same_guard h : same_guard h (handleHashChange h).1.1.
Proof.
  unfold handleHashChange, bind, get.
  destruct (getIndexAndLocation Hash (window h)) as [i l].
  destruct (negb _).
  - pose proof (handlePop_same_guard Hash h) as Hg.
    destruct (handlePop Hash h) as [[h' log] r]. exact Hg.
  - apply same_guard_refl.
Qed.

Lemma guarded_ok_same h h' : same_guard h h' -> guarded_ok h -> guarded_ok h'.
Proof. intros [Hw Hb]. unfold guarded_ok. now rewrite Hw, Hb. Qed.

Lemma guarded_ok_after b c h : guarded_ok h -> guarded_ok (UrlCalls.after b c h).
Proof.
  intros Hok. unfold UrlCalls.after.
  destruct c as [to st rnd|to st rnd|n| | |fn|fn|fn|fn|[to st|to st|n] rnd| |];
    cbn [UrlCalls.run retry]; unfold back, forward;
    try (eapply guarded_ok_same; [|exact Hok];
         first [ apply push_same_guard | apply replace_same_guard
               | apply go_same_guard | apply handlePop_same_guard
               | split; reflexivity ]).
  - (* block *)
    unfold block, bind, modify, get, ret, guarded_ok in *.
    cbn [fst snd window blockers set_blockers].
    destruct (Events.length (Events.push fn (blockers h)) =? 1) eqn:E;
      cbn [fst snd window blockers set_blockers set_window].
    + rewrite beforeunload_set_beforeunload.
      apply Z.eqb_eq in E. unfold Events.length, Events.push in *.
      rewrite length_app in *. cbn [length] in *.
      destruct (Z.of_nat (length (blockers h) + 1) =? 0) eqn:E0;
        [apply Z.eqb_eq in E0; lia | reflexivity].
    + rewrite Hok. unfold Events.length, Events.push in *.
      rewrite length_app in *. cbn [length] in *.
      apply Z.eqb_neq in E.
      destruct (Z.of_nat (length (blockers h)) =? 0) eqn:E1;
        [apply Z.eqb_eq in E1; lia|].
      destruct (Z.of_nat (length (blockers h) + 1) =? 0) eqn:E2;
        [apply Z.eqb_eq in E2; lia | reflexivity].
  - (* unblock *)
    unfold unblock, bind, modify, get, ret, guarded_ok in *.
    cbn [fst snd window blockers set_blockers].
    destruct (Events.length (Events.remove fn (blockers h)) =? 0) eqn:E;
      cbn [fst snd window blockers set_blockers set_window].
    + now rewrite beforeunload_set_beforeunload, E.
    + rewrite ?E, Hok.
      destruct (Events.length (blockers h) =? 0) eqn:E1; [|reflexivity].
      apply length_zero in E1. rewrite E1 in E. discriminate E.
  - (* hashchange *)
    destruct b.
    + exact Hok.
    + eapply guarded_ok_same; [apply handleHashChange_same_guard | exact Hok].
Qed.

(** X20. The [beforeunload] listener is set exactly while a blocker is
    registered: on a platform where only setting and removing the listener
    changes whether it is set, after any calls and events on a history made
    on a window without the listener, the listener is set if and only if the
    registry of blockers is not empty. *)
Theorem beforeunload_follows_blockers b (w : W) (cs : list UrlCalls.Call) :
  beforeunload_set w = false ->
  let h := UrlCalls.run_all b cs (createHistory b w) in
  beforeunload_set (window h) = true <-> blockers h <> [].
Proof.
  intros Hw h.
  assert (Hinit : guarded_ok (createHistory b w)).
  { unfold guarded_ok, createHistory.
    destruct (getIndexAndLocation b w) as [[i|] l]; cbn [window blockers].
    - now rewrite Hw.
    - now rewrite beforeunload_replaceState, Hw. }
  assert (Hok : guarded_ok h).
  { subst h. revert Hinit. generalize (createHistory b w).
    induction cs as [|c cs IH]; intros h0 Hh0; [exact Hh0|].
    apply IH, guarded_ok_after, Hh0. }
  unfold guarded_ok in Hok. rewrite Hok.
  destruct (Events.length (blockers h) =? 0) eqn:E; cbn [negb].
  - apply length_zero in E. rewrite E. split; [discriminate | congruence].
  - split; [|reflexivity]. intros _ Hnil. rewrite Hnil in E. discriminate E.
Qed.

End Sequences.

Section SequencesExamples.

Import UrlCalls.

Lemma beforeunload_follows_blockers_witness :
  let w := Sim.mkWindow [Sim.blank] 0 [] false in
  let cs := [CBlock Sim.blk; CBlock Sim.blk;
             CPush (ToPath "/b") Null "0.9x8y7z6w5v"; CUnblock Sim.blk] in
  beforeunload_set w = false /\
  (beforeunload_set (window (run_all Browser cs (createHistory Browser w))) = true
   <-> blockers (run_all Browser cs (createHistory Browser w)) <> []).
Proof.
  intros w cs.
  assert (Hw : beforeunload_set w = false) by reflexivity.
  split; [exact Hw|].
  exact (beforeunload_follows_blockers Browser w cs Hw).
Defined.

End SequencesExamples.

Section UrlTold.

Context {W : Type} `{Platform W}.
Implicit Types (h : UrlHistory (W := W)) (b : Backend) (c : UrlCalls.Call).

Lemma applied_reads b a (w : W) h :
  (index (applied b a w h), location (applied b a w h))
  = getIndexAndLocation b (window (applied b a w h)).
Proof.
  unfold applied. cbn [index location window].
  now destruct (getIndexAndLocation b w).
Qed.

Lemma commit_told h (pre : list Effect) (upd : Update) fn u :
  listener_calls pre = [] ->
  (fn, u) ∈ listener_calls (pre ++ fan_log CallListener (listeners h) upd) ->
  fn ∈ listeners h /\ u = upd.
Proof.
  intros Hpre Hin. autorewrite with calls in Hin. rewrite Hpre in Hin.
  cbn [app] in Hin. apply list_elem_of_fmap in Hin as (g & [= -> ->] & Hg).
  split; [now apply MemoryMore.call_invoked_registered | reflexivity].
Qed.

Lemma push_told b h to st rnd fn u :
  (fn, u) ∈ listener_calls (push b to st rnd h).1.2 ->
  let h' := (push b to st rnd h).1.1 in
  fn ∈ listeners h /\ blockers h = [] /\
  u = mkUpdate (action h') (Some (location h')) /\
  (index h', location h') = getIndexAndLocation b (window h').
Proof.
  destruct (decide (blockers h = [])) as [Hb|Hb].
  - rewrite (UrlFacts.url_push_unblocked b h to st rnd Hb). cbn [fst snd].
    intros Hin.
    apply commit_told in Hin as [Hf ->]; [|apply UrlFacts.url_notices_quiet].
    split; [exact Hf|]. split; [exact Hb|].
    split; [reflexivity | apply applied_reads].
  - rewrite (UrlFacts.url_push_blocked b h to st rnd Hb). cbn [fst snd].
    autorewrite with calls. rewrite (proj2 (UrlFacts.url_notices_quiet _ _ _ _)).
    intros Hin. now apply elem_of_nil in Hin.
Qed.

Lemma replace_told b h to st rnd fn u :
  (fn, u) ∈ listener_calls (replace b to st rnd h).1.2 ->
  let h' := (replace b to st rnd h).1.1 in
  fn ∈ listeners h /\ blockers h = [] /\
  u = mkUpdate (action h') (Some (location h')) /\
  (index h', location h') = getIndexAndLocation b (window h').
Proof.
  destruct (decide (blockers h = [])) as [Hb|Hb].
  - rewrite (UrlFacts.url_replace_unblocked b h to st rnd Hb). cbn [fst snd].
    intros Hin.
    apply commit_told in Hin as [Hf ->]; [|apply UrlFacts.url_notices_quiet].
    split; [exact Hf|]. split; [exact Hb|].
    split; [reflexivity | apply applied_reads].
  - rewrite (UrlFacts.url_replace_blocked b h to st rnd Hb). cbn [fst snd].
    autorewrite with calls. rewrite (proj2 (UrlFacts.url_notices_quiet _ _ _ _)).
    intros Hin. now apply elem_of_nil in Hin.
Qed.

Lemma handlePop_told b h fn u :
  (fn, u) ∈ listener_calls (handlePop b h).1.2 ->
  let h' := (handlePop b h).1.1 in
  fn ∈ listeners h /\ blockers h = [] /\
  u = mkUpdate (action h') (Some (location h')) /\
  (index h', location h') = getIndexAndLocation b (window h').
Proof.
  destruct (decide (blockers h = [])) as [Hb|Hb].
  - destruct (blockedPopTx h) as [tx|] eqn:Ht.
    + rewrite (UrlFacts.handlePop_held b h tx Ht). cbn [fst snd].
      autorewrite with calls. intros Hin. now apply elem_of_nil in Hin.
    + rewrite (UrlFacts.handlePop_unblocked b h Ht Hb). cbn [fst snd].
      intros Hin.
      apply (commit_told h []) in Hin as [Hf ->]; [|reflexivity].
      split; [exact Hf|]. split; [exact Hb|].
    split; [reflexivity | apply applied_reads].
  - destruct (UrlFacts.handlePop_blocked_cursor b h Hb) as (_ & _ & _ & Hq).
    rewrite Hq. intros Hin. now apply elem_of_nil in Hin.
Qed.

Lemma handleHashChange_told h fn u :
  (fn, u) ∈ listener_calls (handleHashChange h).1.2 ->
  let h' := (handleHashChange h).1.1 in
  fn ∈ listeners h /\ blockers h = [] /\
  u = mkUpdate (action h') (Some (location h')) /\
  (index h', location h') = getIndexAndLocation Hash (window h').
Proof.
  unfold handleHashChange, bind, get.
  destruct (getIndexAndLocation Hash (window h)) as [i l].
  destruct (negb _).
  - pose proof (handlePop_told Hash h fn u) as Ht.
    destruct (handlePop Hash h) as [[h' log] r]. exact Ht.
  - intros Hin. now apply elem_of_nil in Hin.
Qed.

Lemma block_quiet f h : (block f h).1.2 = [] /\ (unblock f h).1.2 = [].
Proof.
  unfold block, unblock, bind, modify, get, ret. cbn [fst snd].
  split; destruct (_ =? _); reflexivity.
Qed.

(** X21. What a listener of a URL-backed history is told, when the
    handlers only return or raise: a handler of this development makes no
    call on the history while it is called.  Whenever a call on a browser
    or a hash history, or an event of the platform, calls such a listener,
    the listener is registered, no blocker is, the update is the action and
    the location that the call or the event leaves in the history, and
    these, with the index, are what the window reports once the call or the
    event has been handled. *)
Theorem url_listener_told b c h fn u :
  (fn, u) ∈ listener_calls (UrlCalls.run b c h).1.2 ->
  let h' := UrlCalls.after b c h in
  fn ∈ listeners h /\ blockers h = [] /\
  u = mkUpdate (action h') (Some (location h')) /\
  (index h', location h') = getIndexAndLocation b (window h').
Proof.
  unfold UrlCalls.after.
  destruct c as [to st rnd|to st rnd|n| | |f|f|f|f|[to st|to st|n] rnd| |];
    cbn [UrlCalls.run retry];
    rewrite ?(proj1 (block_quiet f h)), ?(proj2 (block_quiet f h));
    try (intros Hin; now apply elem_of_nil in Hin);
    try apply push_told; try apply replace_told; try apply handlePop_told.
  destruct b.
  - intros Hin. now apply elem_of_nil in Hin.
  - apply handleHashChange_told.
Qed.

End UrlTold.

Section UrlToldExamples.

Import UrlCalls.

Lemma url_listener_told_witness :
  let h := (unblock Sim.blk Sim.at_b).1.1 in
  let c := CPush (ToPath "/c?x=1") Null "0.9x8y7z6w5v" in
  let u := mkUpdate Push (Some (mkLocation "/c" "?x=1" "" Null "9x8y7z6w")) in
  (Sim.lst, u) ∈ listener_calls (run Browser c h).1.2 /\
  (index (after Browser c h), location (after Browser c h))
  = getIndexAndLocation Browser (window (after Browser c h)).
Proof.
  intros h c u.
  assert (Hin : (Sim.lst, u) ∈ listener_calls (run Browser c h).1.2)
    by (apply elem_of_cons; now left).
  destruct (url_listener_told Browser c h Sim.lst u Hin) as (_ & _ & _ & Hr).
  split; [exact Hin | exact Hr].
Defined.

End UrlToldExamples.

Section Foreign.

Context {W : Type} `{Platform W}.
Implicit Types (h : UrlHistory (W := W)) (b : Backend).

(** X22. A pop to an entry that no history has written costs the history
    its index.  Without blocker such a pop is applied and leaves the history
    without index, so that the state written by the next push has an index
    that is not a number, and, on a platform whose [history.state] after the
    push is that state, so has the history from then on. *)
Theorem foreign_pop_loses_index b h to st rnd :
  blockers h = [] -> blockedPopTx h = None ->
  (getIndexAndLocation b (window h)).1 = None ->
  let popped := (handlePop b h).1.1 in
  let next := getNextLocation (location popped) to st rnd in
  let written :=
    (getHistoryStateAndUrl b (window popped) next (Some (num_add (index popped) 1))).1 in
  let pushed := (push b to st rnd popped).1.1 in
  index popped = None /\ action popped = Pop /\
  location popped = (getIndexAndLocation b (window h)).2 /\
  idx written = Some NaN /\
  (history_state (window pushed) = Some written -> index pushed = Some NaN).
Proof.
  intros Hb Ht Hn popped next written pushed.
  assert (Hp : popped = applied b Pop (window h) h).
  { subst popped. now rewrite (UrlFacts.handlePop_unblocked b h Ht Hb). }
  assert (Hi : index popped = None).
  { rewrite Hp. unfold applied. cbn [index]. exact Hn. }
  assert (Hw : idx written = Some NaN).
  { subst written. cbn [getHistoryStateAndUrl fst idx]. now rewrite Hi. }
  split; [exact Hi|]. split; [now rewrite Hp|]. split; [now rewrite Hp|].
  split; [exact Hw|].
  intros Hst. subst pushed.
  assert (Hbp : blockers popped = []) by now rewrite Hp.
  rewrite (UrlFacts.url_push_unblocked b popped to st rnd Hbp) in *.
  cbn [fst] in *. fold next in Hst |- *.
  unfold applied in *. cbn [window index] in *.
  unfold getIndexAndLocation. rewrite Hst.
  cbn [default from_option id fst]. exact Hw.
Qed.

(** X23. The notice of a push or a replace on a URL-backed history: the
    browser history logs none; the hash history logs one exactly when the
    pathname of the location it is asked to go to is relative, be the move
    vetoed or not. *)
Theorem url_notice_is_about_next b h to st rnd w :
  let next := getNextLocation (location h) to st rnd in
  (Warn w ∈ (push b to st rnd h).1.2 <->
     b = Hash /\ JS.starts_with "/" (pathname next) = false /\
     w = RelativePathname "push" to) /\
  (Warn w ∈ (replace b to st rnd h).1.2 <->
     b = Hash /\ JS.starts_with "/" (pathname next) = false /\
     w = RelativePathname "replace" to).
Proof.
  intros next.
  assert (Hfan : forall A (mk : Handler -> A -> Effect) hs (x : A),
             (forall fn y, mk fn y <> Warn w) -> Warn w ∉ fan_log mk hs x).
  { intros A mk hs x Hmk Hin. unfold fan_log in Hin.
    apply list_elem_of_fmap in Hin as (g & Hg & _). symmetry in Hg. now apply Hmk in Hg. }
  assert (Hnot : forall api,
             Warn w ∈ notices b api to next <->
             b = Hash /\ JS.starts_with "/" (pathname next) = false /\
             w = RelativePathname api to).
  { intros api. unfold notices, warn_log. destruct b.
    - split; [intros Hin; now apply elem_of_nil in Hin | intros [[=] _]].
    - destruct (JS.starts_with "/" (pathname next)).
      + split; [intros Hin; now apply elem_of_nil in Hin | intros (_ & [=] & _)].
      + split.
        * intros Hin. apply list_elem_of_singleton in Hin. injection Hin as ->.
          now repeat split.
        * intros (_ & _ & ->). now apply list_elem_of_singleton. }
  assert (Hsplit : forall api (rest : list Effect),
             Warn w ∉ rest ->
             (Warn w ∈ notices b api to next ++ rest <->
              b = Hash /\ JS.starts_with "/" (pathname next) = false /\
              w = RelativePathname api to)).
  { intros api rest Hrest. rewrite elem_of_app, Hnot. tauto. }
  split; destruct (decide (blockers h = [])) as [Hb|Hb].
  - rewrite (UrlFacts.url_push_unblocked b h to st rnd Hb). cbn [fst snd].
    apply Hsplit, Hfan. discriminate.
  - rewrite (UrlFacts.url_push_blocked b h to st rnd Hb). cbn [fst snd].
    apply Hsplit, Hfan. discriminate.
  - rewrite (UrlFacts.url_replace_unblocked b h to st rnd Hb). cbn [fst snd].
    apply Hsplit, Hfan. discriminate.
  - rewrite (UrlFacts.url_replace_blocked b h to st rnd Hb). cbn [fst snd].
    apply Hsplit, Hfan. discriminate.
Qed.

End Foreign.

Section ForeignExamples.

Lemma foreign_pop_loses_index_witness :
  let foreign := Sim.mkEntry None "/f" "" "" in
  let h := set_window (Sim.mkWindow [foreign] 0 [] false)
             (unblock Sim.blk Sim.at_b).1.1 in
  let popped := (handlePop Browser h).1.1 in
  let pushed := (push Browser (ToPath "/g") Null "0.9x8y7z6w5v" popped).1.1 in
  blockers h = [] /\ blockedPopTx h = None /\
  index h = Some (Int 1) /\ index popped = None /\ index pushed = Some NaN.
Proof.
  intros foreign h popped pushed.
  assert (Hb : blockers h = []) by reflexivity.
  assert (Ht : blockedPopTx h = None) by reflexivity.
  assert (Hn : (getIndexAndLocation Browser (window h)).1 = None) by reflexivity.
  destruct (foreign_pop_loses_index Browser h (ToPath "/g") Null "0.9x8y7z6w5v"
              Hb Ht Hn) as (Hi & _ & _ & _ & Hp).
  split; [exact Hb|]. split; [exact Ht|]. split; [reflexivity|].
  split; [exact Hi|]. apply Hp. vm_compute. reflexivity.
Defined.

End ForeignExamples.

End UrlMore.
